(** * Shooting practice game: the simulation core of [shooting_game.py]

    A shallow embedding of the [Game] object of [src/shooting_game.py]
    and the properties of its update loop, click resolution, round
    state machine and accuracy display.

    Modelling conventions.
    - Python [float] values (times, coordinates, radii) are exact
      rationals [Q]; Python [int] values (score and counters) are [Z].
    - A method that mutates [self] is a function [Game -> Game]; a method
      that may raise is a function into [result Game].
    - The [random] module is a stream [random : nat -> Q] of the values
      that successive calls of [random.random()] return, together with
      the number [draws] of values consumed so far.
    - The pygame rendering calls of [draw] have no effect on the game
      object and are left out; what [draw] computes for them in its
      target loop, its pruning of the floating texts and its accuracy
      computation are kept, with the errors they can raise. *)

From Stdlib Require Import String ZArith QArith Qround Bool List Lia Lqa.
From Stdlib Require Import DecimalString Sorted.
Import ListNotations.

Local Open Scope Q_scope.

(** ** Python primitives *)

Inductive PyError : Type :=
| IndexError
| ZeroDivisionError.

Inductive result (A : Type) : Type :=
| Ok (a : A)
| Raise (e : PyError).

Arguments Ok {A} a.
Arguments Raise {A} e.

Definition bind {A B : Type} (m : result A) (k : A -> result B) : result B :=
  match m with
  | Ok a => k a
  | Raise e => Raise e
  end.

Notation "x <- m ;; k" := (bind m (fun x => k))
  (at level 61, m at next level, right associativity).

Definition Qlt_bool (a b : Q) : bool := negb (Qle_bool b a).

(** [max(a, b)] and [min(a, b)] return the first argument on ties. *)
Definition py_max (a b : Q) : Q := if Qlt_bool a b then b else a.
Definition py_min (a b : Q) : Q := if Qlt_bool b a then b else a.

(** [str(n)] for an [int]. *)
Definition str (n : Z) : string := NilZero.string_of_int (Z.to_int n).

(** [a / b] on numbers: true division, [ZeroDivisionError] on a zero
    divisor. *)
Definition truediv (a b : Q) : result Q :=
  if Qeq_bool b 0 then Raise ZeroDivisionError else Ok (a / b).

(** [a // b] followed by [int(...)], for a non-zero divisor. *)
Definition int_floordiv (a b : Q) : Z := Qfloor (a / b).

(** [enumerate(l)] *)
Definition enumerate {A : Type} (l : list A) : list (nat * A) :=
  combine (seq 0 (length l)) l.

(** [l.pop(i)] for [i >= 0]: the element and the remaining list. *)
Definition pop {A : Type} (l : list A) (i : nat) : result (A * list A) :=
  match nth_error l i with
  | Some a => Ok (a, firstn i l ++ skipn (S i) l)
  | None => Raise IndexError
  end.

(** ** Config *)

Definition WIDTH : Z := 900.
Definition HEIGHT : Z := 600.

Definition TARGET_MIN_RADIUS : Z := 16.
Definition TARGET_MAX_RADIUS : Z := 36.
Definition TARGET_LIFETIME : Q := 15 # 10.
Definition SPAWN_INTERVAL_START : Q := 85 # 100.
Definition SPAWN_INTERVAL_MIN : Q := 35 # 100.
Definition SPAWN_ACCEL_EVERY : Z := 5.
Definition SPAWN_ACCEL_STEP : Q := 4 # 100.
Definition MAX_TARGETS_ON_SCREEN : nat := 7.

Definition MISS_SCORE : Z := -5.
Definition TIMEOUT_SCORE : Z := -3.
Definition RING_SCORES : list Z := [10; 5; 1]%Z.
Definition RING_FRACS : list Q := [25 # 100; 55 # 100; 1].

(** [RING_FRACS[i]] at the literal indices the code uses; [-1] is the
    last entry. *)
Definition RING_FRACS_at (i : nat) : Q := nth i RING_FRACS 0.
Definition RING_FRACS_last : Q := last RING_FRACS 0.

(** [None] is the endless mode. *)
Definition ROUND_TIME : option Z := Some 15%Z.

Definition Color : Type := (Z * Z * Z)%type.
Definition WHITE : Color := (240, 240, 240)%Z.
Definition GREEN : Color := (45, 200, 120)%Z.
Definition RED : Color := (230, 60, 70)%Z.
Definition CYAN : Color := (60, 210, 230)%Z.

(** ** Data structures *)

(** The [Target] dataclass; its fields are [Target.x], [Target.y],
    [Target.r], [Target.spawn_time] and [Target.lifetime]. *)
Module Target.

Record t : Type := mk {
  x : Q;
  y : Q;
  r : Q;
  spawn_time : Q;
  lifetime : Q
}.


End Target.

Definition clamp (v lo hi : Q) : Q := py_max lo (py_min hi v).

(** One entry of [floating_texts]: [(text, color, x, y, birth_time)]. *)
Record FloatText : Type := mkFloatText {
  ft_text : string;
  ft_color : Color;
  ft_x : Q;
  ft_y : Q;
  ft_birth : Q
}.

(** The game object.  [draws] is the state of the [random] module. *)
Record Game : Type := mkGame {
  running : bool;
  playing : bool;
  paused : bool;
  targets : list Target.t;
  spawn_interval : Q;
  last_spawn : Q;
  start_time : Q;
  elapsed : Q;
  score : Z;
  hits : Z;
  misses : Z;
  timeouts : Z;
  best_score : Z;
  floating_texts : list FloatText;
  draws : nat
}.

(** Attribute assignment [self.f = v]: one setter per field. *)

Definition set_running (v : bool) (g : Game) : Game :=
  mkGame v (playing g) (paused g) (targets g) (spawn_interval g)
    (last_spawn g) (start_time g) (elapsed g) (score g) (hits g)
    (misses g) (timeouts g) (best_score g) (floating_texts g) (draws g).

Definition set_playing (v : bool) (g : Game) : Game :=
  mkGame (running g) v (paused g) (targets g) (spawn_interval g)
    (last_spawn g) (start_time g) (elapsed g) (score g) (hits g)
    (misses g) (timeouts g) (best_score g) (floating_texts g) (draws g).

Definition set_paused (v : bool) (g : Game) : Game :=
  mkGame (running g) (playing g) v (targets g) (spawn_interval g)
    (last_spawn g) (start_time g) (elapsed g) (score g) (hits g)
    (misses g) (timeouts g) (best_score g) (floating_texts g) (draws g).

Definition set_targets (v : list Target.t) (g : Game) : Game :=
  mkGame (running g) (playing g) (paused g) v (spawn_interval g)
    (last_spawn g) (start_time g) (elapsed g) (score g) (hits g)
    (misses g) (timeouts g) (best_score g) (floating_texts g) (draws g).

Definition set_spawn_interval (v : Q) (g : Game) : Game :=
  mkGame (running g) (playing g) (paused g) (targets g) v (last_spawn g)
    (start_time g) (elapsed g) (score g) (hits g) (misses g) (timeouts g)
    (best_score g) (floating_texts g) (draws g).

Definition set_last_spawn (v : Q) (g : Game) : Game :=
  mkGame (running g) (playing g) (paused g) (targets g) (spawn_interval g)
    v (start_time g) (elapsed g) (score g) (hits g) (misses g)
    (timeouts g) (best_score g) (floating_texts g) (draws g).

Definition set_start_time (v : Q) (g : Game) : Game :=
  mkGame (running g) (playing g) (paused g) (targets g) (spawn_interval g)
    (last_spawn g) v (elapsed g) (score g) (hits g) (misses g)
    (timeouts g) (best_score g) (floating_texts g) (draws g).

Definition set_elapsed (v : Q) (g : Game) : Game :=
  mkGame (running g) (playing g) (paused g) (targets g) (spawn_interval g)
    (last_spawn g) (start_time g) v (score g) (hits g) (misses g)
    (timeouts g) (best_score g) (floating_texts g) (draws g).

Definition set_score (v : Z) (g : Game) : Game :=
  mkGame (running g) (playing g) (paused g) (targets g) (spawn_interval g)
    (last_spawn g) (start_time g) (elapsed g) v (hits g) (misses g)
    (timeouts g) (best_score g) (floating_texts g) (draws g).

Definition set_hits (v : Z) (g : Game) : Game :=
  mkGame (running g) (playing g) (paused g) (targets g) (spawn_interval g)
    (last_spawn g) (start_time g) (elapsed g) (score g) v (misses g)
    (timeouts g) (best_score g) (floating_texts g) (draws g).

Definition set_misses (v : Z) (g : Game) : Game :=
  mkGame (running g) (playing g) (paused g) (targets g) (spawn_interval g)
    (last_spawn g) (start_time g) (elapsed g) (score g) (hits g) v
    (timeouts g) (best_score g) (floating_texts g) (draws g).

Definition set_timeouts (v : Z) (g : Game) : Game :=
  mkGame (running g) (playing g) (paused g) (targets g) (spawn_interval g)
    (last_spawn g) (start_time g) (elapsed g) (score g) (hits g)
    (misses g) v (best_score g) (floating_texts g) (draws g).

Definition set_best_score (v : Z) (g : Game) : Game :=
  mkGame (running g) (playing g) (paused g) (targets g) (spawn_interval g)
    (last_spawn g) (start_time g) (elapsed g) (score g) (hits g)
    (misses g) (timeouts g) v (floating_texts g) (draws g).

Definition set_floating_texts (v : list FloatText) (g : Game) : Game :=
  mkGame (running g) (playing g) (paused g) (targets g) (spawn_interval g)
    (last_spawn g) (start_time g) (elapsed g) (score g) (hits g)
    (misses g) (timeouts g) (best_score g) v (draws g).

Definition set_draws (v : nat) (g : Game) : Game :=
  mkGame (running g) (playing g) (paused g) (targets g) (spawn_interval g)
    (last_spawn g) (start_time g) (elapsed g) (score g) (hits g)
    (misses g) (timeouts g) (best_score g) (floating_texts g) v.

(** ** Game *)

(** Locals of the scan loop of [handle_click]. *)
Record Scan : Type := mkScan {
  hit_index : Z;
  closest_d2 : Q;
  ring_idx_for_hit : option nat
}.

Inductive Key : Type := K_ESCAPE | K_r | K_p | K_other.

(** The events [handle_events] distinguishes; [MOUSEBUTTONDOWN] carries
    [event.button] and [event.pos]. *)
Inductive Event : Type :=
| QUIT
| KEYDOWN (key : Key)
| MOUSEBUTTONDOWN (button : Z) (pos : Q * Q)
| OTHER_EVENT.

(** [reset] assigns every attribute of the game object; the state of the
    [random] module is not its to reset. *)
Definition reset (g : Game) : Game :=
  mkGame true false false [] SPAWN_INTERVAL_START 0 0 0 0 0 0 0 0 []
    (draws g).

(** The state [Game.__init__] hands to the main loop: the fields set by
    [reset], with no random number drawn yet. *)
Definition new_game : Game :=
  reset (mkGame false false false [] 0 0 0 0 0 0 0 0 0 [] 0).

Definition start_round (now : Q) (g : Game) : Game :=
  let g := set_playing true g in
  let g := set_targets [] g in
  let g := set_spawn_interval SPAWN_INTERVAL_START g in
  let g := set_last_spawn now g in
  let g := set_start_time now g in
  let g := set_elapsed 0 g in
  let g := set_score 0 g in
  let g := set_hits 0 g in
  let g := set_misses 0 g in
  let g := set_timeouts 0 g in
  set_floating_texts [] g.

Definition make_float_text (text : string) (color : Color) (x y now : Q)
    (g : Game) : Game :=
  set_floating_texts (floating_texts g ++ [mkFloatText text color x y now]) g.

(** *** Expiry loop of [update] *)

Definition expired (now : Q) (t : Target.t) : bool :=
  Qlt_bool (Target.lifetime t) (now - Target.spawn_time t).

(** One iteration of [for t in self.targets]; the accumulator is the
    game object and the local list [alive]. *)
Definition expire_step (now : Q) (acc : Game * list Target.t)
    (t : Target.t) : Game * list Target.t :=
  let (g, alive) := acc in
  if expired now t then
    let g := set_score (score g + TIMEOUT_SCORE) g in
    let g := set_timeouts (timeouts g + 1) g in
    (make_float_text ("-" ++ str (Z.abs TIMEOUT_SCORE)) RED
       (Target.x t) (Target.y t) now g, alive)
  else (g, alive ++ [t]).

Definition expire_targets (now : Q) (g : Game) : Game :=
  let (g', alive) := fold_left (expire_step now) (targets g) (g, []) in
  set_targets alive g'.

(** *** Difficulty ramp and round end of [update] *)

Definition update_difficulty (g : Game) : Game :=
  if negb (SPAWN_ACCEL_EVERY =? 0)%Z && Qlt_bool 0 (elapsed g) then
    let steps := int_floordiv (elapsed g) (inject_Z SPAWN_ACCEL_EVERY) in
    set_spawn_interval
      (clamp (SPAWN_INTERVAL_START - inject_Z steps * SPAWN_ACCEL_STEP)
             SPAWN_INTERVAL_MIN SPAWN_INTERVAL_START) g
  else g.

Definition end_round (g : Game) : Game :=
  match ROUND_TIME with
  | Some round_time =>
      if Qle_bool (inject_Z round_time) (elapsed g) then
        let g := set_best_score (Z.max (best_score g) (score g)) g in
        set_playing false g
      else g
  | None => g
  end.

(** *** Scan loop of [handle_click] *)

Definition scan_step (mx my : Q) (s : Scan) (it : nat * Target.t) : Scan :=
  let (i, t) := it in
  let dx := mx - Target.x t in
  let dy := my - Target.y t in
  let d2 := dx * dx + dy * dy in
  if Qle_bool d2 ((Target.r t * RING_FRACS_last) ^ 2) then
    if Qlt_bool d2 (closest_d2 s) then
      mkScan (Z.of_nat i) d2
        (Some (if Qle_bool d2 ((Target.r t * RING_FRACS_at 0) ^ 2) then 0%nat
               else if Qle_bool d2 ((Target.r t * RING_FRACS_at 1) ^ 2)
                    then 1%nat
                    else 2%nat))
    else s
  else s.

Definition scan (mx my : Q) (ts : list Target.t) : Scan :=
  fold_left (scan_step mx my) (enumerate ts)
    (mkScan (-1) (1000000000000 # 1) None).

Definition index {A : Type} (l : list A) (i : nat) : result A :=
  match nth_error l i with
  | Some a => Ok a
  | None => Raise IndexError
  end.

Definition miss (mx my now : Q) (g : Game) : Game :=
  let g := set_score (score g + MISS_SCORE) g in
  let g := set_misses (misses g + 1) g in
  make_float_text (str MISS_SCORE) RED mx my now g.

Definition handle_click (pos : Q * Q) (now : Q) (g : Game) : result Game :=
  if negb (playing g) then Ok (start_round now g)
  else
    let (mx, my) := pos in
    let s := scan mx my (targets g) in
    match (0 <=? hit_index s)%Z, ring_idx_for_hit s with
    | true, Some ring =>
        p <- pop (targets g) (Z.to_nat (hit_index s)) ;;
        award <- index RING_SCORES ring ;;
        let t := fst p in
        let g := set_targets (snd p) g in
        let g := set_score (score g + award) g in
        let g := set_hits (hits g + 1) g in
        let color :=
          if (award =? 10)%Z then GREEN
          else if (award =? 5)%Z then CYAN
          else WHITE in
        Ok (make_float_text ("+" ++ str award) color
              (Target.x t) (Target.y t) now g)
    | _, _ => Ok (miss mx my now g)
    end.

(** *** Event handling *)

Definition handle_event (now : Q) (event : Event) (g : Game) : result Game :=
  match event with
  | QUIT => Ok (set_running false g)
  | KEYDOWN K_ESCAPE => Ok (set_running false g)
  | KEYDOWN K_r => Ok (set_best_score 0 g)
  | KEYDOWN K_p =>
      if playing g then Ok (set_paused (negb (paused g)) g) else Ok g
  | KEYDOWN K_other => Ok g
  | MOUSEBUTTONDOWN button pos =>
      if (button =? 1)%Z then handle_click pos now g else Ok g
  | OTHER_EVENT => Ok g
  end.

Fixpoint handle_events (now : Q) (events : list Event) (g : Game)
    : result Game :=
  match events with
  | [] => Ok g
  | event :: rest => g' <- handle_event now event g ;; handle_events now rest g'
  end.

(** *** Rendering: the target loop of [draw] *)

(** [int(x)] for a float: truncation toward zero. *)
Definition py_int (q : Q) : Z :=
  if Qle_bool 0 q then Qfloor q else Qceiling q.

(** What [draw] computes for one target: the red level of the timeout
    arc, the pixel radii of the middle and bullseye rings, and the
    fraction of the arc that is drawn. *)
Record Look : Type := mkLook {
  alpha : Q;
  inner_r : Z;
  core_r : Z;
  progress : Q
}.

(** One iteration of [for t in self.targets] in [draw].  [clamp] is
    called with integers for [alpha]; they are injected into [Q]. *)
Definition draw_target (now : Q) (t : Target.t) : result Look :=
  let age := now - Target.spawn_time t in
  q <- truediv age (Target.lifetime t) ;;
  let alpha := clamp (inject_Z (255 - py_int (q * 255))) 30 255 in
  let inner_r := py_int (Target.r t * (55 # 100)) in
  let core_r := py_int (Target.r t * (25 # 100)) in
  q' <- truediv (now - Target.spawn_time t) (Target.lifetime t) ;;
  let progress := clamp q' 0 1 in
  Ok (mkLook alpha inner_r core_r progress).

Fixpoint draw_targets (now : Q) (ts : list Target.t) : result (list Look) :=
  match ts with
  | [] => Ok []
  | t :: rest =>
      look <- draw_target now t ;;
      looks <- draw_targets now rest ;;
      Ok (look :: looks)
  end.

(** *** Rendering: floating texts and HUD of [draw] *)

Definition accuracy (g : Game) : result Q :=
  q <- truediv (inject_Z (hits g))
         (inject_Z (Z.max 1 (hits g + misses g))) ;;
  Ok (q * 100).

(** [draw(now)]: the target loop, then the pruning of the floating
    texts, then the accuracy of the HUD.  An error of the target loop is
    raised before the floating texts are touched. *)
Definition draw (now : Q) (g : Game) : result Game :=
  _ <- draw_targets now (targets g) ;;
  let ft_alive :=
    filter (fun ft => Qlt_bool (now - ft_birth ft) (7 # 10))
      (floating_texts g) in
  let g := set_floating_texts ft_alive g in
  _ <- accuracy g ;;
  Ok g.

Section Random.

(** [random n] is the value returned by the [n]-th call of
    [random.random()] since the process started. *)
Variable random : nat -> Q.

(** [random.uniform(a, b)], drawing the [n]-th random value:
    [a + (b - a) * random()]. *)
Definition uniform (a b : Q) (n : nat) : Q := a + (b - a) * random n.

Definition spawn_target (now : Q) (g : Game) : Game :=
  let n := draws g in
  let r :=
    uniform (inject_Z TARGET_MIN_RADIUS) (inject_Z TARGET_MAX_RADIUS) n in
  let x := uniform (r + 8) (inject_Z WIDTH - r - 8) (n + 1) in
  let y := uniform (r + 8 + 40) (inject_Z HEIGHT - r - 8) (n + 2) in
  let life := TARGET_LIFETIME * uniform (85 # 100) (115 # 100) (n + 3) in
  let g := set_draws (n + 4) g in
  set_targets (targets g ++ [Target.mk x y r now life]) g.

Definition update_spawn (now : Q) (g : Game) : Game :=
  if Qle_bool (spawn_interval g) (now - last_spawn g)
     && (length (targets g) <? MAX_TARGETS_ON_SCREEN)%nat
  then set_last_spawn now (spawn_target now g)
  else g.

(** [update(dt, now)]: the two early returns, then the blocks of the
    method body in order. *)
Definition update (dt now : Q) (g : Game) : Game :=
  if negb (playing g) then g
  else if paused g then g
  else
    let g := set_elapsed (now - start_time g) g in
    let g := update_difficulty g in
    let g := update_spawn now g in
    let g := expire_targets now g in
    end_round g.

(** The state of [update] just before its expiry loop. *)
Definition before_expiry (now : Q) (g : Game) : Game :=
  update_spawn now (update_difficulty (set_elapsed (now - start_time g) g)).

(** The target [spawn_target] appends. *)
Definition spawned (now : Q) (g : Game) : Target.t :=
  last (targets (spawn_target now g)) (Target.mk 0 0 0 0 0).

(** *** Calls on the game object *)

Inductive Call : Type :=
| CallReset
| CallStartRound (now : Q)
| CallUpdate (dt now : Q)
| CallHandleClick (pos : Q * Q) (now : Q)
| CallHandleEvents (now : Q) (events : list Event)
| CallDraw (now : Q).

Definition call (c : Call) (g : Game) : result Game :=
  match c with
  | CallReset => Ok (reset g)
  | CallStartRound now => Ok (start_round now g)
  | CallUpdate dt now => Ok (update dt now g)
  | CallHandleClick pos now => handle_click pos now g
  | CallHandleEvents now events => handle_events now events g
  | CallDraw now => draw now g
  end.

Fixpoint calls (cs : list Call) (g : Game) : result Game :=
  match cs with
  | [] => Ok g
  | c :: rest => g' <- call c g ;; calls rest g'
  end.

(** The states a program can bring a fresh game object to. *)
Definition reachable (g : Game) : Prop :=
  exists cs, calls cs new_game = Ok g.

(** One frame of [run]: events, update, draw, all at the same [now]. *)
Definition frame (dt now : Q) (events : list Event) (g : Game) : result Game :=
  g <- handle_events now events g ;;
  draw now (update dt now g).

(** [run]: frames while [running] is set.  Each frame carries the
    values the clock and the event queue supply: [dt], [now] and the
    pending events. *)
Fixpoint run (frames : list (Q * Q * list Event)) (g : Game) : result Game :=
  match frames with
  | [] => Ok g
  | (dt, now, events) :: rest =>
      if running g then g' <- frame dt now events g ;; run rest g'
      else Ok g
  end.

End Random.

(** ** Vocabulary of the properties *)

(** [random.random()] returns values in [0, 1).  The closed interval is
    assumed: rounding lets [random.uniform(a, b)] return its end point
    [b], which the exact [uniform] reaches only at 1. *)
Definition unit_interval (random : nat -> Q) : Prop :=
  forall n, 0 <= random n <= 1.

(** The feedback event the expiry loop creates for a target. *)
Definition timeout_text (now : Q) (t : Target.t) : FloatText :=
  mkFloatText "-3" RED (Target.x t) (Target.y t) now.

Definition alive_at (now : Q) (t : Target.t) : bool := negb (expired now t).

(** Squared distance from a click to the centre of a target, as the scan
    loop computes it. *)
Definition dist2 (pos : Q * Q) (t : Target.t) : Q :=
  let dx := fst pos - Target.x t in
  let dy := snd pos - Target.y t in
  dx * dx + dy * dy.

(** The outer ring of the target contains the click. *)
Definition in_outer (pos : Q * Q) (t : Target.t) : bool :=
  Qle_bool (dist2 pos t) ((Target.r t * RING_FRACS_last) ^ 2).

(** Ring index of a click on a target: innermost ring first. *)
Definition ring_of (pos : Q * Q) (t : Target.t) : nat :=
  if Qle_bool (dist2 pos t) ((Target.r t * RING_FRACS_at 0) ^ 2) then 0
  else if Qle_bool (dist2 pos t) ((Target.r t * RING_FRACS_at 1) ^ 2) then 1
  else 2.

(** Points awarded for a ring index: [+10], [+5] or [+1]. *)
Definition ring_award (ring : nat) : Z :=
  match ring with
  | O => 10
  | S O => 5
  | _ => 1
  end.

(** The feedback event of a hit on a target. *)
Definition hit_text (pos : Q * Q) (now : Q) (t : Target.t) : FloatText :=
  match ring_of pos t with
  | O => mkFloatText "+10" GREEN (Target.x t) (Target.y t) now
  | S O => mkFloatText "+5" CYAN (Target.x t) (Target.y t) now
  | _ => mkFloatText "+1" WHITE (Target.x t) (Target.y t) now
  end.

(** The feedback event of a miss. *)
Definition miss_text (pos : Q * Q) (now : Q) : FloatText :=
  mkFloatText "-5" RED (fst pos) (snd pos) now.

(** The value [closest_d2] starts from. *)
Definition FAR : Q := 1000000000000 # 1.

(** Data-model invariant of a target's radius. *)
Definition radius_ok (t : Target.t) : Prop :=
  inject_Z TARGET_MIN_RADIUS <= Target.r t <= inject_Z TARGET_MAX_RADIUS.

(** The list without its [i]-th element. *)
Definition remove_at {A : Type} (i : nat) (l : list A) : list A :=
  firstn i l ++ skipn (S i) l.

(** Target [t], at index [i], is hit by a click at [pos]: its outer ring
    contains the click and no target whose outer ring contains the click
    is closer; among equally close ones it is the first of the list. *)
Definition closest_hit (pos : Q * Q) (ts : list Target.t) (i : nat)
    (t : Target.t) : Prop :=
  nth_error ts i = Some t /\
  in_outer pos t = true /\
  dist2 pos t < FAR /\
  forall j t',
    nth_error ts j = Some t' -> in_outer pos t' = true ->
    dist2 pos t <= dist2 pos t' /\ ((j < i)%nat -> dist2 pos t < dist2 pos t').

(** What the scan loop has found after the targets [ts]. *)
Inductive scan_result (pos : Q * Q) (ts : list Target.t) (s : Scan) : Prop :=
| scan_nothing :
    hit_index s = (-1)%Z -> ring_idx_for_hit s = None -> closest_d2 s = FAR ->
    (forall t, In t ts -> in_outer pos t = true -> FAR <= dist2 pos t) ->
    scan_result pos ts s
| scan_found (i : nat) (t : Target.t) :
    hit_index s = Z.of_nat i -> ring_idx_for_hit s = Some (ring_of pos t) ->
    closest_d2 s = dist2 pos t -> closest_hit pos ts i t ->
    scan_result pos ts s.

(** The game object after a hit on target [t] at index [i]. *)
Definition hit_state (pos : Q * Q) (now : Q) (i : nat) (t : Target.t)
    (g : Game) : Game :=
  set_floating_texts (floating_texts g ++ [hit_text pos now t])
    (set_hits (hits g + 1)
       (set_score (score g + ring_award (ring_of pos t))
          (set_targets (remove_at i (targets g)) g))).

(** The game object after a miss. *)
Definition miss_state (pos : Q * Q) (now : Q) (g : Game) : Game :=
  set_floating_texts (floating_texts g ++ [miss_text pos now])
    (set_misses (misses g + 1) (set_score (score g - 5) g)).

(** A property of the game object kept by every elementary transition
    that can happen at clock value [now]: the calls [reset],
    [start_round] and [update]; the two outcomes of a click during play;
    a pause toggle, which [handle_events] performs only during play; and
    the writes to [best_score], [running] and [floating_texts]. *)
Record step_closed_at (random : nat -> Q) (now : Q) (P : Game -> Prop)
    : Prop := {
  sc_reset : forall g, P g -> P (reset g);
  sc_start_round : forall g, P g -> P (start_round now g);
  sc_update : forall dt g, P g -> P (update random dt now g);
  sc_miss : forall pos g,
      P g -> playing g = true -> P (miss_state pos now g);
  sc_hit : forall pos i t g,
      P g -> playing g = true -> closest_hit pos (targets g) i t ->
      P (hit_state pos now i t g);
  sc_pause : forall b g, P g -> playing g = true -> P (set_paused b g);
  sc_best_score : forall v g, P g -> P (set_best_score v g);
  sc_running : forall b g, P g -> P (set_running b g);
  sc_floating_texts : forall fts g, P g -> P (set_floating_texts fts g)
}.

Definition step_closed (random : nat -> Q) (P : Game -> Prop) : Prop :=
  forall now, step_closed_at random now P.

(** The clock value a call is made with, if it takes one. *)
Definition call_now (c : Call) : option Q :=
  match c with
  | CallReset => None
  | CallStartRound now => Some now
  | CallUpdate _ now => Some now
  | CallHandleClick _ now => Some now
  | CallHandleEvents now _ => Some now
  | CallDraw now => Some now
  end.

(** The clock never runs backwards along a sequence of calls that
    starts when the clock shows [t]. *)
Fixpoint monotone_clock (t : Q) (cs : list Call) : Prop :=
  match cs with
  | [] => True
  | c :: rest =>
      match call_now c with
      | Some now => t <= now /\ monotone_clock now rest
      | None => monotone_clock t rest
      end
  end.

(** The spawn interval the difficulty ramp prescribes at elapsed round
    time [t]: [clamp(0.85 - floor(t / 5) * 0.04, 0.35, 0.85)]. *)
Definition ramp (t : Q) : Q :=
  clamp ((85 # 100) - inject_Z (Qfloor (t / 5)) * (4 # 100))
    (35 # 100) (85 # 100).

(** A sequence of [update] calls, each with its [(dt, now)]. *)
Definition updates (random : nat -> Q) (ticks : list (Q * Q)) (g : Game)
    : Game :=
  fold_left (fun g tick => update random (fst tick) (snd tick) g) ticks g.

(** Invariants of the reachable states. *)
Definition capacity_ok (g : Game) : Prop :=
  (length (targets g) <= MAX_TARGETS_ON_SCREEN)%nat.

Definition pause_ok (g : Game) : Prop :=
  paused g = true -> playing g = true.

Definition counters_ok (g : Game) : Prop :=
  (0 <= hits g)%Z /\ (0 <= misses g)%Z.

Definition radii_ok (g : Game) : Prop :=
  Forall radius_ok (targets g).

(** During play the round started no later than the clock value [now],
    and the stored elapsed time and spawn interval agree with the ramp. *)
Definition ramp_ok (now : Q) (g : Game) : Prop :=
  spawn_interval g == ramp (elapsed g) /\
  (playing g = true ->
   start_time g <= now /\ 0 <= elapsed g /\ elapsed g <= now - start_time g).

(** The round advances by no more than the frame delta over the first
    [update] after a pause is toggled off: time spent paused is not
    counted against the round. *)
Definition elapsed_continues (random : nat -> Q) (dt now : Q) (g : Game)
    : Prop :=
  elapsed (update random dt now (set_paused false g)) <= elapsed g + dt.

(** Time spent paused is not counted against a target: one whose age
    before the pause, advanced by the frame delta, is within its lifetime
    survives the first [update] after the pause.  The age before the
    pause is measured at the last update, [start_time + elapsed]. *)
Definition ages_continue (random : nat -> Q) (dt now : Q) (g : Game)
    : Prop :=
  forall t,
    In t (targets g) ->
    (start_time g + elapsed g - Target.spawn_time t) + dt
    <= Target.lifetime t ->
    In t (targets (update random dt now (set_paused false g))).

(** ** Record bookkeeping *)

(** Computes the setters and projections of a game object given by its
    fields. *)

Ltac unfold_setters :=
  lazy beta iota zeta delta
    [make_float_text set_running set_playing set_paused set_targets
     set_spawn_interval set_last_spawn set_start_time set_elapsed
     set_score set_hits set_misses set_timeouts set_best_score
     set_floating_texts set_draws
     running playing paused targets spawn_interval last_spawn start_time
     elapsed score hits misses timeouts best_score floating_texts draws]
    in *.

(** Unfolds the states of the elementary transitions on a game object
    given by its fields. *)
Ltac frame_step :=
  unfold hit_state, miss_state, start_round, reset in *;
  match goal with
  | g : Game |- _ => destruct g
  end;
  unfold_setters.

(** ** Concrete scenarios *)

(** A random source whose every draw is one half. *)
Definition half : nat -> Q := fun _ => 1 # 2.

(** A round started by a click at clock value 10. *)
Definition round_started : Game := start_round 10 new_game.

(** The same round one second later: one target, spawned at 11 with
    radius 26 and lifetime 1.5, centred at (450, 320). *)
Definition one_target : Game := update half 0 11 round_started.

(** That target. *)
Definition first_target : Target.t :=
  hd (Target.mk 0 0 0 0 0) (targets one_target).

(** The round with its target, paused. *)
Definition one_target_paused : Game := set_paused true one_target.

(** ** Elementary transitions *)

(** The floating texts [draw] keeps at clock value [now]. *)
Definition ft_alive (now : Q) (fts : list FloatText) : list FloatText :=
  filter (fun ft => Qlt_bool (now - ft_birth ft) (7 # 10)) fts.

(** What a call at clock value [now] can do to the game object, step by
    step: the three methods, the two outcomes of a click during play,
    the key commands and the pruning of [draw]. *)
Inductive transition (random : nat -> Q) (now : Q) : Game -> Game -> Prop :=
| t_reset g : transition random now g (reset g)
| t_start_round g : transition random now g (start_round now g)
| t_update dt g : transition random now g (update random dt now g)
| t_miss pos g :
    playing g = true -> transition random now g (miss_state pos now g)
| t_hit pos i t g :
    playing g = true -> closest_hit pos (targets g) i t ->
    transition random now g (hit_state pos now i t g)
| t_pause g :
    playing g = true ->
    transition random now g (set_paused (negb (paused g)) g)
| t_reset_best g : transition random now g (set_best_score 0 g)
| t_quit g : transition random now g (set_running false g)
| t_prune g :
    transition random now g
      (set_floating_texts (ft_alive now (floating_texts g)) g).

(** ** Further invariants *)

(** A target as [spawn_target] makes it, in exact arithmetic: radius in
    [16, 36], the whole circle at least 8 pixels inside the window and
    below the 40 pixel HUD band, lifetime in [1.275, 1.725]. *)
Definition target_ok (t : Target.t) : Prop :=
  16 <= Target.r t /\ Target.r t <= 36 /\
  8 <= Target.x t - Target.r t /\ Target.x t + Target.r t <= 892 /\
  48 <= Target.y t - Target.r t /\ Target.y t + Target.r t <= 592 /\
  1275 # 1000 <= Target.lifetime t /\ Target.lifetime t <= 1725 # 1000.

Definition targets_ok (g : Game) : Prop := Forall target_ok (targets g).

(** Every live target has a positive lifetime. *)
Definition lifetimes_ok (g : Game) : Prop :=
  Forall (fun t => 0 < Target.lifetime t) (targets g).

(** Target [a] was spawned at least [SPAWN_INTERVAL_MIN] before [b]. *)
Definition spawn_gap (a b : Target.t) : Prop :=
  Target.spawn_time a + (35 # 100) <= Target.spawn_time b.

(** The spawn interval is within its bounds, the live targets are listed
    oldest first and spaced by at least the minimal interval, and each
    was spawned no later than [last_spawn] and was within its lifetime
    then. *)
Definition spacing_ok (g : Game) : Prop :=
  (35 # 100 <= spawn_interval g /\ spawn_interval g <= 85 # 100) /\
  StronglySorted spawn_gap (targets g) /\
  Forall (fun t =>
            Target.spawn_time t <= last_spawn g /\
            last_spawn g - Target.spawn_time t <= Target.lifetime t)
         (targets g).


(** The five feedback events the game shows. *)
Definition feedback_ok (ft : FloatText) : Prop :=
  (ft_text ft = "+10"%string /\ ft_color ft = GREEN) \/
  (ft_text ft = "+5"%string /\ ft_color ft = CYAN) \/
  (ft_text ft = "+1"%string /\ ft_color ft = WHITE) \/
  (ft_text ft = "-5"%string /\ ft_color ft = RED) \/
  (ft_text ft = "-3"%string /\ ft_color ft = RED).

(** No live target was spawned after clock value [now]. *)
Definition ages_ok (now : Q) (g : Game) : Prop :=
  Forall (fun t => Target.spawn_time t <= now) (targets g).

(** The round of [one_target] two seconds later: the target has timed
    out and a second one has been spawned. *)
Definition one_timeout : Game := update half 0 13 one_target.

(** The round of [one_target] after a click far from the target. *)
Definition one_miss : Game := miss_state (10, 100) 12 one_target.

(** The clock value of the last call of a sequence that starts when the
    clock shows [t]. *)
Fixpoint last_clock (t : Q) (cs : list Call) : Q :=
  match cs with
  | [] => t
  | c :: rest =>
      match call_now c with
      | Some now => last_clock now rest
      | None => last_clock t rest
      end
  end.

(** A second round, started after a first round that ended with 10
    points: the target of [one_target] is hit in its bullseye at 12, the
    round ends at 26 with a best score of 10, and a click at 30 starts
    the next round. *)
Definition second_round : Game :=
  match
    calls half
      [CallStartRound 10; CallUpdate 0 11; CallHandleClick (450, 320) 12;
       CallUpdate 0 26; CallHandleClick (0, 0) 30]
      new_game
  with
  | Ok g => g
  | Raise _ => new_game
  end.

(** * Properties *)

(** ** Comparisons and clamping *)

Lemma Qlt_bool_iff (a b : Q) : Qlt_bool a b = true <-> a < b.
Proof.
  unfold Qlt_bool. rewrite negb_true_iff, <- not_true_iff_false, Qle_bool_iff.
  split; intro H; [apply Qnot_le_lt | apply Qlt_not_le]; exact H.
Qed.

Lemma Qlt_bool_false_iff (a b : Q) : Qlt_bool a b = false <-> b <= a.
Proof.
  unfold Qlt_bool. rewrite negb_false_iff. apply Qle_bool_iff.
Qed.

Lemma Qle_bool_false_iff (a b : Q) : Qle_bool a b = false <-> b < a.
Proof.
  rewrite <- not_true_iff_false, Qle_bool_iff.
  split; intro H; [apply Qnot_le_lt | apply Qlt_not_le]; exact H.
Qed.

Lemma clamp_bounds (v lo hi : Q) : lo <= hi -> lo <= clamp v lo hi <= hi.
Proof.
  intro H. unfold clamp, py_max, py_min.
  destruct (Qlt_bool v hi) eqn:E1.
  - apply Qlt_bool_iff in E1.
    destruct (Qlt_bool lo v) eqn:E2.
    + apply Qlt_bool_iff in E2. lra.
    + lra.
  - destruct (Qlt_bool lo hi) eqn:E2; lra.
Qed.

Lemma clamp_inside (v lo hi : Q) : lo <= v -> v <= hi -> clamp v lo hi == v.
Proof.
  intros H1 H2. unfold clamp, py_max, py_min.
  destruct (Qlt_bool v hi) eqn:E1.
  - destruct (Qlt_bool lo v) eqn:E2; [reflexivity|].
    apply Qlt_bool_false_iff in E2. lra.
  - apply Qlt_bool_false_iff in E1.
    destruct (Qlt_bool lo hi) eqn:E2.
    + lra.
    + apply Qlt_bool_false_iff in E2. lra.
Qed.

Lemma clamp_below (v lo hi : Q) : lo <= hi -> v <= lo -> clamp v lo hi == lo.
Proof.
  intros H1 H2. unfold clamp, py_max, py_min.
  destruct (Qlt_bool v hi) eqn:E1.
  - destruct (Qlt_bool lo v) eqn:E2; [|reflexivity].
    apply Qlt_bool_iff in E2. lra.
  - apply Qlt_bool_false_iff in E1.
    destruct (Qlt_bool lo hi) eqn:E2; [|reflexivity].
    lra.
Qed.


(** ** The expiry loop *)

Lemma expire_fold (now : Q) (ts : list Target.t) :
  forall (g : Game) (alive : list Target.t),
    fold_left (expire_step now) ts (g, alive) =
    (set_floating_texts
       (floating_texts g ++ map (timeout_text now) (filter (expired now) ts))
       (set_timeouts (timeouts g + Z.of_nat (length (filter (expired now) ts)))
          (set_score
             (score g
              + TIMEOUT_SCORE * Z.of_nat (length (filter (expired now) ts)))
             g)),
     alive ++ filter (alive_at now) ts).
Proof.
  induction ts as [|t ts IH]; intros g alive.
  - destruct g; unfold_setters. cbn [filter length map fold_left].
    rewrite 2!app_nil_r. change (Z.of_nat 0) with 0%Z.
    replace (score0 + TIMEOUT_SCORE * 0)%Z with score0 by lia.
    replace (timeouts0 + 0)%Z with timeouts0 by lia.
    reflexivity.
  - cbn [fold_left expire_step filter]. unfold alive_at at 1.
    destruct (expired now t) eqn:E; cbn [negb].
    + rewrite IH. destruct g; unfold_setters.
      cbn [length map]. rewrite Nat2Z.inj_succ, <- app_assoc.
      f_equal. f_equal; unfold TIMEOUT_SCORE; lia.
    + rewrite IH. rewrite <- app_assoc. reflexivity.
Qed.

Lemma expire_targets_eq (now : Q) (g : Game) :
  expire_targets now g =
  set_targets (filter (alive_at now) (targets g))
    (set_floating_texts
       (floating_texts g
        ++ map (timeout_text now) (filter (expired now) (targets g)))
       (set_timeouts
          (timeouts g + Z.of_nat (length (filter (expired now) (targets g))))
          (set_score
             (score g
              + TIMEOUT_SCORE
                * Z.of_nat (length (filter (expired now) (targets g))))
             g))).
Proof.
  unfold expire_targets. rewrite expire_fold. reflexivity.
Qed.

(** ** The phases of [update] *)

Section UpdateProperties.

Variable random : nat -> Q.

Lemma update_not_playing (dt now : Q) (g : Game) :
  playing g = false -> update random dt now g = g.
Proof. intro H. unfold update. rewrite H. reflexivity. Qed.

Lemma update_paused (dt now : Q) (g : Game) :
  paused g = true -> update random dt now g = g.
Proof.
  intro H. unfold update. rewrite H. destruct (playing g); reflexivity.
Qed.

Lemma update_running (dt now : Q) (g : Game) :
  playing g = true -> paused g = false ->
  update random dt now g =
  end_round
    (expire_targets now
       (update_spawn random now
          (update_difficulty (set_elapsed (now - start_time g) g)))).
Proof. intros H1 H2. unfold update. rewrite H1, H2. reflexivity. Qed.

Lemma spawn_target_targets (now : Q) (g : Game) :
  targets (spawn_target random now g) = targets g ++ [spawned random now g].
Proof.
  unfold spawned, spawn_target. destruct g. unfold_setters. rewrite last_last.
  reflexivity.
Qed.

Lemma spawned_spawn_time (now : Q) (g : Game) :
  Target.spawn_time (spawned random now g) = now.
Proof.
  unfold spawned, spawn_target. destruct g. unfold_setters. rewrite last_last.
  reflexivity.
Qed.

Lemma spawned_lifetime (now : Q) (g : Game) :
  unit_interval random -> 0 < Target.lifetime (spawned random now g).
Proof.
  intro U. unfold spawned, spawn_target. destruct g. unfold_setters.
  rewrite last_last.
  cbn [Target.lifetime]. unfold uniform, TARGET_LIFETIME.
  pose proof (U (draws0 + 3)%nat) as [H _]. lra.
Qed.

Lemma spawned_radius (now : Q) (g : Game) :
  unit_interval random ->
  inject_Z TARGET_MIN_RADIUS <= Target.r (spawned random now g)
  <= inject_Z TARGET_MAX_RADIUS.
Proof.
  intro U. unfold spawned, spawn_target. destruct g. unfold_setters.
  rewrite last_last.
  cbn [Target.r].
  unfold uniform, TARGET_MIN_RADIUS, TARGET_MAX_RADIUS, inject_Z.
  pose proof (U draws0) as [H1 H2]. split; lra.
Qed.

Lemma spawned_alive (now : Q) (g : Game) :
  unit_interval random -> expired now (spawned random now g) = false.
Proof.
  intro U. unfold expired. apply Qlt_bool_false_iff.
  rewrite spawned_spawn_time. pose proof (spawned_lifetime now g U). lra.
Qed.

(** What the blocks before the expiry loop leave alone. *)
Lemma before_expiry_frame (now : Q) (g : Game) :
  let b := before_expiry random now g in
  running b = running g /\ playing b = playing g /\ paused b = paused g /\
  start_time b = start_time g /\ elapsed b = now - start_time g /\
  score b = score g /\ hits b = hits g /\ misses b = misses g /\
  timeouts b = timeouts g /\ best_score b = best_score g /\
  floating_texts b = floating_texts g.
Proof.
  unfold before_expiry, update_spawn, update_difficulty, spawn_target.
  destruct g. unfold_setters.
  repeat match goal with
         | |- context [if ?c then _ else _] => destruct c
         end; unfold_setters; repeat split; reflexivity.
Qed.

Lemma before_expiry_targets (now : Q) (g : Game) :
  targets (before_expiry random now g) = targets g \/
  ((length (targets g) < MAX_TARGETS_ON_SCREEN)%nat /\
   exists t,
     targets (before_expiry random now g) = targets g ++ [t] /\
     t = spawned random now
           (update_difficulty (set_elapsed (now - start_time g) g))).
Proof.
  unfold before_expiry, update_spawn.
  set (g1 := update_difficulty _).
  assert (T : targets g1 = targets g).
  { unfold g1, update_difficulty. destruct g. unfold_setters.
    match goal with
    | |- context [if ?c then _ else _] => destruct c
    end; reflexivity. }
  destruct (Qle_bool _ _ && _) eqn:E.
  - right. apply andb_true_iff in E. destruct E as [_ E].
    apply Nat.ltb_lt in E. rewrite T in E. split; [exact E|].
    exists (spawned random now g1). split; [|reflexivity].
    rewrite <- T, <- spawn_target_targets.
    destruct (spawn_target random now g1); reflexivity.
  - left. exact T.
Qed.

(** Every field of the game object after an [update] that runs. *)
Lemma update_fields (dt now : Q) (g : Game) :
  playing g = true -> paused g = false ->
  let b := before_expiry random now g in
  let dead := filter (expired now) (targets b) in
  let u := update random dt now g in
  let over := Qle_bool 15 (now - start_time g) in
  running u = running g /\ paused u = paused g /\
  start_time u = start_time g /\ elapsed u = now - start_time g /\
  hits u = hits g /\ misses u = misses g /\
  score u = (score g + TIMEOUT_SCORE * Z.of_nat (length dead))%Z /\
  timeouts u = (timeouts g + Z.of_nat (length dead))%Z /\
  floating_texts u = floating_texts g ++ map (timeout_text now) dead /\
  targets u = filter (alive_at now) (targets b) /\
  playing u = negb over /\
  best_score u =
    (if over then Z.max (best_score g) (score u) else best_score g) /\
  spawn_interval u = spawn_interval b /\ last_spawn u = last_spawn b /\
  draws u = draws b.
Proof.
  intros P NP b dead u over.
  assert (U : u = end_round (expire_targets now b)).
  { unfold u, b, before_expiry. apply update_running; assumption. }
  pose proof (before_expiry_frame now g) as F. cbv zeta in F. fold b in F.
  destruct F as (F1 & F2 & F3 & F4 & F5 & F6 & F7 & F8 & F9 & F10 & F11).
  rewrite expire_targets_eq in U. fold dead in U.
  rewrite F6, F9, F11 in U.
  assert (O : Qle_bool 15 (elapsed b) = over) by (rewrite F5; reflexivity).
  clearbody over b. rewrite U. unfold end_round, ROUND_TIME.
  destruct b. unfold_setters. change (inject_Z 15) with 15.
  rewrite O.
  destruct over; subst; unfold_setters; repeat split;
    solve [reflexivity | exact P].
Qed.

End UpdateProperties.

(** ** Click resolution *)

Lemma enumerate_from_snoc {A : Type} (l : list A) (a : A) :
  forall n,
    combine (seq n (length (l ++ [a]))) (l ++ [a]) =
    combine (seq n (length l)) l ++ [((n + length l)%nat, a)].
Proof.
  induction l as [|b l IH]; intro n.
  - cbn. rewrite Nat.add_0_r. reflexivity.
  - cbn [length app seq combine]. rewrite IH.
    rewrite Nat.add_succ_comm. reflexivity.
Qed.

Lemma enumerate_snoc {A : Type} (l : list A) (a : A) :
  enumerate (l ++ [a]) = enumerate l ++ [(length l, a)].
Proof. unfold enumerate. rewrite enumerate_from_snoc. reflexivity. Qed.

Lemma nth_error_snoc_inv {A : Type} (l : list A) (a b : A) (j : nat) :
  nth_error (l ++ [a]) j = Some b ->
  ((j < length l)%nat /\ nth_error l j = Some b) \/ (j = length l /\ b = a).
Proof.
  intro H. destruct (Nat.lt_ge_cases j (length l)) as [L|L].
  - left. split; [exact L|]. rewrite nth_error_app1 in H; assumption.
  - right. rewrite nth_error_app2 in H by exact L.
    destruct (j - length l)%nat as [|k] eqn:E.
    + cbn in H. split; [lia | congruence].
    + cbn in H. destruct k; discriminate.
Qed.

Lemma scan_step_eq (pos : Q * Q) (s : Scan) (i : nat) (t : Target.t) :
  scan_step (fst pos) (snd pos) s (i, t) =
  if in_outer pos t then
    if Qlt_bool (dist2 pos t) (closest_d2 s) then
      mkScan (Z.of_nat i) (dist2 pos t) (Some (ring_of pos t))
    else s
  else s.
Proof. reflexivity. Qed.

Lemma scan_snoc (pos : Q * Q) (ts : list Target.t) (t : Target.t) :
  scan (fst pos) (snd pos) (ts ++ [t]) =
  scan_step (fst pos) (snd pos) (scan (fst pos) (snd pos) ts) (length ts, t).
Proof.
  unfold scan. rewrite enumerate_snoc, fold_left_app. reflexivity.
Qed.

Lemma scan_result_closest_le (pos : Q * Q) (ts : list Target.t) (s : Scan) :
  scan_result pos ts s -> closest_d2 s <= FAR.
Proof.
  intros [_ _ C _ | i t _ _ C (_ & _ & L & _)]; rewrite C; lra.
Qed.

Lemma scan_spec (pos : Q * Q) (ts : list Target.t) :
  scan_result pos ts (scan (fst pos) (snd pos) ts).
Proof.
  induction ts as [|a l IH] using rev_ind.
  - apply scan_nothing; try reflexivity. intros t [].
  - rewrite scan_snoc, scan_step_eq.
    set (s := scan (fst pos) (snd pos) l) in *.
    pose proof (scan_result_closest_le _ _ _ IH) as LE.
    destruct (in_outer pos a) eqn:O.
    + destruct (Qlt_bool (dist2 pos a) (closest_d2 s)) eqn:C.
      * apply Qlt_bool_iff in C.
        apply scan_found with (i := length l) (t := a); try reflexivity.
        split; [|split; [exact O|split; [lra|]]].
        { rewrite nth_error_app2 by lia. rewrite Nat.sub_diag. reflexivity. }
        intros j t' N O'.
        apply nth_error_snoc_inv in N. destruct N as [[L N]|[-> ->]].
        -- assert (dist2 pos a < dist2 pos t');
             [|split; [lra|intros _; assumption]].
           destruct IH as [_ _ C0 F | i t _ _ C0 (_ & _ & _ & M)].
           ++ apply nth_error_In in N. specialize (F _ N O'). lra.
           ++ destruct (M _ _ N O') as [M1 _]. rewrite C0 in C. lra.
        -- split; [lra | lia].
      * apply Qlt_bool_false_iff in C.
        destruct IH as [H1 H2 C0 F | i t H1 H2 C0 (N & O' & L & M)].
        -- apply scan_nothing; try assumption.
           intros t I O'. apply in_app_or in I. destruct I as [I|[<-|[]]].
           ++ apply F; assumption.
           ++ rewrite <- C0. exact C.
        -- apply scan_found with (i := i) (t := t); try assumption.
           assert (Li : (i < length l)%nat).
           { apply nth_error_Some. congruence. }
           split; [|split; [exact O'|split; [exact L|]]].
           { rewrite nth_error_app1; assumption. }
           intros j t' N' O''.
           apply nth_error_snoc_inv in N'. destruct N' as [[L' N']|[-> ->]].
           ++ apply M; assumption.
           ++ split; [rewrite <- C0; exact C | lia].
    + destruct IH as [H1 H2 C0 F | i t H1 H2 C0 (N & O' & L & M)].
      * apply scan_nothing; try assumption.
        intros t I O'. apply in_app_or in I. destruct I as [I|[<-|[]]].
        -- apply F; assumption.
        -- congruence.
      * apply scan_found with (i := i) (t := t); try assumption.
        assert (Li : (i < length l)%nat).
        { apply nth_error_Some. congruence. }
        split; [|split; [exact O'|split; [exact L|]]].
        { rewrite nth_error_app1; assumption. }
        intros j t' N' O''.
        apply nth_error_snoc_inv in N'. destruct N' as [[L' N']|[-> ->]].
        -- apply M; assumption.
        -- congruence.
Qed.

Lemma ring_of_cases (pos : Q * Q) (t : Target.t) :
  ring_of pos t = 0%nat \/ ring_of pos t = 1%nat \/ ring_of pos t = 2%nat.
Proof.
  unfold ring_of.
  destruct (Qle_bool _ _); [auto|]. destruct (Qle_bool _ _); auto.
Qed.

Lemma handle_click_not_playing (pos : Q * Q) (now : Q) (g : Game) :
  playing g = false -> handle_click pos now g = Ok (start_round now g).
Proof. intro H. unfold handle_click. rewrite H. reflexivity. Qed.

(** A click during play is a miss or a hit on the closest target. *)
Lemma handle_click_playing (pos : Q * Q) (now : Q) (g : Game) :
  playing g = true ->
  ((forall t, In t (targets g) -> in_outer pos t = true -> FAR <= dist2 pos t)
   /\ handle_click pos now g = Ok (miss_state pos now g))
  \/
  (exists i t,
      closest_hit pos (targets g) i t /\
      handle_click pos now g = Ok (hit_state pos now i t g)).
Proof.
  intro P. unfold handle_click. rewrite P. cbn [negb].
  pose proof (scan_spec pos (targets g)) as S.
  destruct pos as [mx my]. cbn [fst snd] in S.
  destruct S as [H1 H2 _ F | i t H1 H2 _ C].
  - left. split; [exact F|]. rewrite H1, H2. reflexivity.
  - right. exists i, t. split; [exact C|].
    rewrite H1, H2.
    assert (L : (0 <=? Z.of_nat i)%Z = true) by (apply Z.leb_le; lia).
    rewrite L, Nat2Z.id. unfold pop.
    destruct C as (N & _). rewrite N. cbn [bind fst snd].
    unfold hit_state, hit_text, remove_at.
    destruct (ring_of_cases (mx, my) t) as [R|[R|R]]; rewrite R;
      reflexivity.
Qed.

Lemma handle_click_total (pos : Q * Q) (now : Q) (g : Game) :
  exists g', handle_click pos now g = Ok g'.
Proof.
  destruct (playing g) eqn:P.
  - destruct (handle_click_playing pos now g P) as [[_ H]|(i & t & _ & H)];
      eauto.
  - rewrite handle_click_not_playing by exact P. eauto.
Qed.

Lemma divisor_nonzero (n : Z) : Qeq_bool (inject_Z (Z.max 1 n)) 0 = false.
Proof.
  destruct (Qeq_bool _ _) eqn:E; [|reflexivity].
  apply Qeq_bool_eq in E. unfold Qeq in E. cbn in E. lia.
Qed.

Lemma accuracy_defined (g : Game) : exists a, accuracy g = Ok a.
Proof.
  unfold accuracy, truediv. rewrite divisor_nonzero. cbn [bind]. eauto.
Qed.

Lemma handle_event_total (now : Q) (event : Event) (g : Game) :
  exists g', handle_event now event g = Ok g'.
Proof.
  destruct event as [|[| | |]|button pos|]; cbn; eauto.
  - destruct (playing g); eauto.
  - destruct (button =? 1)%Z; [apply handle_click_total | eauto].
Qed.

Lemma handle_events_total (now : Q) (events : list Event) :
  forall g, exists g', handle_events now events g = Ok g'.
Proof.
  induction events as [|event rest IH]; intro g; cbn [handle_events];
    [eauto|].
  destruct (handle_event_total now event g) as [g1 ->]. cbn [bind].
  apply IH.
Qed.

Lemma truediv_ok (a b : Q) : ~ b == 0 -> truediv a b = Ok (a / b).
Proof.
  intro H. unfold truediv. destruct (Qeq_bool b 0) eqn:E; [|reflexivity].
  apply Qeq_bool_iff in E. contradiction.
Qed.

Lemma draw_targets_total (now : Q) (ts : list Target.t) :
  Forall (fun t => 0 < Target.lifetime t) ts ->
  exists looks,
    draw_targets now ts = Ok looks /\ length looks = length ts.
Proof.
  induction ts as [|t ts IH]; intro F; cbn [draw_targets].
  - exists []. auto.
  - inversion F as [|? ? Li Fs]; subst.
    assert (N : ~ Target.lifetime t == 0) by lra.
    unfold draw_target. rewrite !(truediv_ok _ _ N). cbn [bind].
    destruct (IH Fs) as (looks & -> & Le). cbn [bind].
    eexists. split; [reflexivity|]. cbn [length]. rewrite Le. reflexivity.
Qed.

(** When [draw] returns, it has pruned the floating texts and done
    nothing else to the game object. *)
Lemma draw_ok (now : Q) (g g' : Game) :
  draw now g = Ok g' ->
  g' = set_floating_texts (ft_alive now (floating_texts g)) g.
Proof.
  unfold draw. intro E.
  destruct (draw_targets now (targets g)); cbn [bind] in E; [|discriminate].
  destruct (accuracy _); cbn [bind] in E; [|discriminate].
  injection E as <-. reflexivity.
Qed.

(** [draw] returns on every game object whose targets have positive
    lifetimes. *)
Lemma draw_total (now : Q) (g : Game) :
  lifetimes_ok g -> exists g', draw now g = Ok g'.
Proof.
  intro L. unfold draw.
  destruct (draw_targets_total now (targets g) L) as (looks & -> & _).
  cbn [bind].
  destruct (accuracy_defined
              (set_floating_texts
                 (filter (fun ft => Qlt_bool (now - ft_birth ft) (7 # 10))
                    (floating_texts g)) g)) as [a ->].
  cbn [bind]. eauto.
Qed.

Lemma radius_ok_outer (pos : Q * Q) (t : Target.t) :
  radius_ok t -> in_outer pos t = true -> dist2 pos t < FAR.
Proof.
  unfold radius_ok, in_outer, TARGET_MIN_RADIUS, TARGET_MAX_RADIUS, inject_Z.
  intros [L U] O. apply Qle_bool_iff in O.
  change ((Target.r t * RING_FRACS_last) ^ 2)
    with ((Target.r t * 1) * (Target.r t * 1)) in O.
  unfold FAR. nra.
Qed.

(** ** Reachable states *)

Section Reachability.

Variable random : nat -> Q.

Lemma update_cases (dt now : Q) (g : Game) :
  update random dt now g = g \/ (playing g = true /\ paused g = false).
Proof.
  destruct (playing g) eqn:P.
  - destruct (paused g) eqn:Q; [|auto].
    left. apply update_paused. exact Q.
  - left. apply update_not_playing. exact P.
Qed.

Lemma calls_app (cs1 cs2 : list Call) :
  forall g,
    calls random (cs1 ++ cs2) g =
    (g' <- calls random cs1 g ;; calls random cs2 g').
Proof.
  induction cs1 as [|c cs1 IH]; intro g; [reflexivity|].
  cbn [app calls]. destruct (call random c g) as [g1|e]; cbn [bind];
    [apply IH | reflexivity].
Qed.

(** The main loop only makes calls on the game object. *)
Lemma run_calls (frames : list (Q * Q * list Event)) :
  forall g g',
    run random frames g = Ok g' -> exists cs, calls random cs g = Ok g'.
Proof.
  induction frames as [|[[dt now] events] rest IH]; intros g g' E;
    cbn [run] in E.
  - exists []. exact E.
  - destruct (running g); [|exists []; exact E].
    destruct (frame random dt now events g) as [g1|e] eqn:F; cbn [bind] in E;
      [|discriminate].
    destruct (IH g1 g' E) as (cs & C).
    exists ([CallHandleEvents now events; CallUpdate dt now; CallDraw now]
            ++ cs).
    rewrite calls_app. unfold frame in F. cbn [calls call].
    destruct (handle_events now events g) as [g0|e]; cbn [bind] in *;
      [|discriminate].
    rewrite F. cbn [bind]. exact C.
Qed.

Lemma run_reachable (frames : list (Q * Q * list Event)) (g : Game) :
  run random frames new_game = Ok g -> reachable random g.
Proof. apply run_calls. Qed.

Variable P : Game -> Prop.

Section AtClock.

Variable now : Q.
Hypothesis closed : step_closed_at random now P.

Lemma handle_click_preserves (pos : Q * Q) (g g' : Game) :
  P g -> handle_click pos now g = Ok g' -> P g'.
Proof.
  intros H E. destruct (playing g) eqn:Pl.
  - destruct (handle_click_playing pos now g Pl) as [[_ M]|(i & t & C & M)];
      rewrite M in E; injection E as <-.
    + apply (sc_miss _ _ _ closed); assumption.
    + apply (sc_hit _ _ _ closed); assumption.
  - rewrite handle_click_not_playing in E by exact Pl. injection E as <-.
    apply (sc_start_round _ _ _ closed). exact H.
Qed.

Lemma handle_event_preserves (event : Event) (g g' : Game) :
  P g -> handle_event now event g = Ok g' -> P g'.
Proof.
  intros H E. destruct event as [|[| | |]|button pos|]; cbn in E.
  - injection E as <-. apply (sc_running _ _ _ closed). exact H.
  - injection E as <-. apply (sc_running _ _ _ closed). exact H.
  - injection E as <-. apply (sc_best_score _ _ _ closed). exact H.
  - destruct (playing g) eqn:Pl; injection E as <-; [|exact H].
    apply (sc_pause _ _ _ closed); assumption.
  - injection E as <-. exact H.
  - destruct (button =? 1)%Z.
    + eapply handle_click_preserves; eassumption.
    + injection E as <-. exact H.
  - injection E as <-. exact H.
Qed.

Lemma handle_events_preserves (events : list Event) :
  forall g g', P g -> handle_events now events g = Ok g' -> P g'.
Proof.
  induction events as [|event rest IH]; intros g g' H E; cbn in E.
  - injection E as <-. exact H.
  - destruct (handle_event now event g) as [g1|e] eqn:E1; cbn in E;
      [|discriminate].
    apply (IH g1); [|exact E].
    eapply handle_event_preserves; eassumption.
Qed.

Lemma draw_preserves (g g' : Game) :
  P g -> draw now g = Ok g' -> P g'.
Proof.
  intros H E. apply draw_ok in E. subst g'.
  apply (sc_floating_texts _ _ _ closed). exact H.
Qed.

(** A call made at clock value [now], or one that takes no clock
    value, keeps the property. *)
Lemma call_preserves (c : Call) (g g' : Game) :
  call_now c = Some now \/ call_now c = None ->
  P g -> call random c g = Ok g' -> P g'.
Proof.
  intros N H E.
  destruct c; cbn in E, N;
    try (destruct N as [N|N]; [injection N as ->|discriminate]).
  - injection E as <-. apply (sc_reset _ _ _ closed). exact H.
  - injection E as <-. apply (sc_start_round _ _ _ closed). exact H.
  - injection E as <-. apply (sc_update _ _ _ closed). exact H.
  - eapply handle_click_preserves; eassumption.
  - eapply handle_events_preserves; eassumption.
  - eapply draw_preserves; eassumption.
Qed.

End AtClock.

Hypothesis closed : step_closed random P.

Lemma calls_preserve (cs : list Call) :
  forall g g', P g -> calls random cs g = Ok g' -> P g'.
Proof.
  induction cs as [|c rest IH]; intros g g' H E; cbn in E.
  - injection E as <-. exact H.
  - destruct (call random c g) as [g1|e] eqn:E1; cbn in E; [|discriminate].
    apply (IH g1); [|exact E].
    destruct (call_now c) as [now|] eqn:N.
    + apply (call_preserves now (closed now) c g g1); auto.
    + apply (call_preserves 0 (closed 0) c g g1); auto.
Qed.

Lemma reachable_ind_steps (g : Game) :
  P new_game -> reachable random g -> P g.
Proof.
  intros H [cs E]. eapply calls_preserve; eassumption.
Qed.

End Reachability.

(** ** Invariants of the reachable states *)

Lemma remove_at_length {A : Type} (i : nat) (l : list A) :
  (length (remove_at i l) <= length l)%nat.
Proof.
  unfold remove_at. rewrite length_app, length_firstn, length_skipn. lia.
Qed.

Lemma remove_at_length_lt {A : Type} (i : nat) (l : list A) :
  (i < length l)%nat -> S (length (remove_at i l)) = length l.
Proof.
  intro H. unfold remove_at.
  rewrite length_app, length_firstn, length_skipn. lia.
Qed.

Lemma remove_at_incl {A : Type} (i : nat) (l : list A) (a : A) :
  In a (remove_at i l) -> In a l.
Proof.
  unfold remove_at. intro H. apply in_app_or in H.
  rewrite <- (firstn_skipn i l). apply in_or_app. destruct H as [H|H].
  - left. exact H.
  - right. change (S i) with (1 + i)%nat in H. rewrite <- skipn_skipn in H.
    rewrite <- (firstn_skipn 1 (skipn i l)). apply in_or_app. right. exact H.
Qed.

Section Invariants.

Variable random : nat -> Q.

Lemma update_targets_length (dt now : Q) (g : Game) :
  (length (targets (update random dt now g))
   <= Nat.max (length (targets g))
        (Nat.min (S (length (targets g))) MAX_TARGETS_ON_SCREEN))%nat.
Proof.
  destruct (update_cases random dt now g) as [->|[P NP]]; [lia|].
  destruct (update_fields random dt now g P NP)
    as (_ & _ & _ & _ & _ & _ & _ & _ & _ & T & _).
  rewrite T.
  pose proof (filter_length_le (alive_at now)
                (targets (before_expiry random now g))) as L.
  destruct (before_expiry_targets random now g) as [E|[C (t & E & _)]];
    rewrite E in *.
  - lia.
  - rewrite length_app in L. cbn [length] in L. lia.
Qed.

Lemma capacity_closed : step_closed random capacity_ok.
Proof.
  intro now. unfold capacity_ok. split.
  - intros g _. cbn. lia.
  - intros g _. frame_step. cbn. lia.
  - intros dt g H. pose proof (update_targets_length dt now g). lia.
  - intros pos g H _. frame_step. exact H.
  - intros pos i t g H _ _.
    pose proof (remove_at_length i (targets g)) as L.
    frame_step. lia.
  - intros b g H _. frame_step. exact H.
  - intros v g H. frame_step. exact H.
  - intros b g H. frame_step. exact H.
  - intros fts g H. frame_step. exact H.
Qed.

Lemma pause_closed : step_closed random pause_ok.
Proof.
  intro now. unfold pause_ok. split.
  - intros g _. cbn. discriminate.
  - intros g _. frame_step. reflexivity.
  - intros dt g H.
    destruct (update_cases random dt now g) as [->|[P NP]]; [exact H|].
    destruct (update_fields random dt now g P NP) as (_ & -> & _).
    congruence.
  - intros pos g H P. frame_step. intros _. exact P.
  - intros pos i t g H P _. frame_step. intros _. exact P.
  - intros b g H P. frame_step. intros _. exact P.
  - intros v g H. frame_step. exact H.
  - intros b g H. frame_step. exact H.
  - intros fts g H. frame_step. exact H.
Qed.

Lemma counters_closed : step_closed random counters_ok.
Proof.
  intro now. unfold counters_ok. split.
  - intros g _. cbn. lia.
  - intros g _. frame_step. lia.
  - intros dt g H.
    destruct (update_cases random dt now g) as [->|[P NP]]; [exact H|].
    destruct (update_fields random dt now g P NP)
      as (_ & _ & _ & _ & -> & -> & _).
    exact H.
  - intros pos g H _. frame_step. lia.
  - intros pos i t g H _ _. frame_step. lia.
  - intros b g H _. frame_step. exact H.
  - intros v g H. frame_step. exact H.
  - intros b g H. frame_step. exact H.
  - intros fts g H. frame_step. exact H.
Qed.

Hypothesis random_unit : unit_interval random.

Lemma radii_closed : step_closed random radii_ok.
Proof.
  intro now. unfold radii_ok. split.
  - intros g _. cbn. constructor.
  - intros g _. frame_step. constructor.
  - intros dt g H.
    destruct (update_cases random dt now g) as [->|[P NP]]; [exact H|].
    destruct (update_fields random dt now g P NP)
      as (_ & _ & _ & _ & _ & _ & _ & _ & _ & T & _).
    rewrite T. apply Forall_forall. intros t I.
    apply filter_In in I. destruct I as [I _].
    destruct (before_expiry_targets random now g) as [E|[C (t' & E & S)]];
      rewrite E in I.
    + rewrite Forall_forall in H. apply H. exact I.
    + apply in_app_or in I. destruct I as [I|[<-|[]]].
      * rewrite Forall_forall in H. apply H. exact I.
      * rewrite S. apply spawned_radius. exact random_unit.
  - intros pos g H _. frame_step. exact H.
  - intros pos i t g H _ _.
    assert (F : Forall radius_ok (remove_at i (targets g))).
    { apply Forall_forall. intros t' I. apply remove_at_incl in I.
      rewrite Forall_forall in H. apply H. exact I. }
    frame_step. exact F.
  - intros b g H _. frame_step. exact H.
  - intros v g H. frame_step. exact H.
  - intros b g H. frame_step. exact H.
  - intros fts g H. frame_step. exact H.
Qed.

Lemma lifetimes_closed : step_closed random lifetimes_ok.
Proof.
  intro now. unfold lifetimes_ok. split.
  - intros g _. cbn. constructor.
  - intros g _. frame_step. constructor.
  - intros dt g H.
    destruct (update_cases random dt now g) as [->|[P NP]]; [exact H|].
    destruct (update_fields random dt now g P NP)
      as (_ & _ & _ & _ & _ & _ & _ & _ & _ & T & _).
    rewrite T. apply Forall_forall. intros t I.
    apply filter_In in I. destruct I as [I _].
    destruct (before_expiry_targets random now g) as [E|[C (t' & E & S)]];
      rewrite E in I.
    + rewrite Forall_forall in H. apply H. exact I.
    + apply in_app_or in I. destruct I as [I|[<-|[]]].
      * rewrite Forall_forall in H. apply H. exact I.
      * rewrite S. apply spawned_lifetime. exact random_unit.
  - intros pos g H _. frame_step. exact H.
  - intros pos i t g H _ _.
    assert (F : Forall (fun t0 => 0 < Target.lifetime t0)
                  (remove_at i (targets g))).
    { apply Forall_forall. intros t' I. apply remove_at_incl in I.
      rewrite Forall_forall in H. apply H. exact I. }
    frame_step. exact F.
  - intros b g H _. frame_step. exact H.
  - intros v g H. frame_step. exact H.
  - intros b g H. frame_step. exact H.
  - intros fts g H. frame_step. exact H.
Qed.

Lemma reachable_lifetimes_ok (g : Game) :
  reachable random g -> lifetimes_ok g.
Proof.
  intro R.
  apply (reachable_ind_steps random lifetimes_ok lifetimes_closed);
    [|exact R].
  unfold lifetimes_ok. cbn. constructor.
Qed.

End Invariants.

(** * The claims *)

Lemma half_unit : unit_interval half.
Proof. intro n. unfold half. split; lra. Qed.

Lemma one_target_reachable : reachable half one_target.
Proof.
  exists [CallStartRound 10; CallUpdate 0 11]. vm_compute. reflexivity.
Qed.

Lemma one_target_paused_reachable : reachable half one_target_paused.
Proof.
  exists [CallStartRound 10; CallUpdate 0 11;
          CallHandleEvents 11 [KEYDOWN K_p]].
  vm_compute. reflexivity.
Qed.

(** ** Capacity *)

(** C3: in every state reachable by calls of [reset], [start_round],
    [update], [handle_click] (and [handle_events], [draw]) the number of
    live targets is at most [MAX_TARGETS_ON_SCREEN = 7]; an [update] adds
    at most one target; and at full capacity the spawn block of [update]
    does nothing at all. *)
Theorem live_targets_never_exceed_capacity (random : nat -> Q) :
  (forall g, reachable random g -> (length (targets g) <= 7)%nat) /\
  (forall dt now g,
      (length (targets (update random dt now g))
       <= S (length (targets g)))%nat) /\
  (forall now g,
      (7 <= length (targets g))%nat -> update_spawn random now g = g).
Proof.
  split; [|split].
  - intros g R.
    apply (reachable_ind_steps random capacity_ok (capacity_closed random));
      [|exact R].
    unfold capacity_ok. cbn. lia.
  - intros dt now g. pose proof (update_targets_length random dt now g). lia.
  - intros now g H. unfold update_spawn.
    replace (length (targets g) <? MAX_TARGETS_ON_SCREEN)%nat with false.
    + rewrite andb_false_r. reflexivity.
    + symmetry. apply Nat.ltb_ge. exact H.
Qed.

Lemma live_targets_never_exceed_capacity_witness :
  (length (targets one_target) <= 7)%nat.
Proof.
  apply (proj1 (live_targets_never_exceed_capacity half)).
  exact one_target_reachable.
Defined.

(** ** Pause flag *)

(** C8: in every reachable state [paused] implies [playing], so a state
    that is not playing (start screen, round over) is never paused.  The
    P key is ignored when no round is playing, [update] returns a paused
    game unchanged (so a paused round cannot end), and whenever a round
    is started from a reachable state that is not playing the pause flag
    is already clear. *)
Theorem paused_implies_playing (random : nat -> Q) :
  (forall g, reachable random g -> paused g = true -> playing g = true) /\
  (forall g, reachable random g -> playing g = false -> paused g = false) /\
  (forall now g,
      playing g = false -> handle_event now (KEYDOWN K_p) g = Ok g) /\
  (forall dt now g, paused g = true -> update random dt now g = g) /\
  (forall now g,
      reachable random g -> playing g = false ->
      paused (start_round now g) = false).
Proof.
  assert (I : forall g, reachable random g -> pause_ok g).
  { intros g R.
    apply (reachable_ind_steps random pause_ok (pause_closed random));
      [|exact R].
    unfold pause_ok. cbn. discriminate. }
  split; [|split; [|split; [|split]]].
  - exact I.
  - intros g R H. specialize (I g R). unfold pause_ok in I.
    destruct (paused g); [|reflexivity].
    rewrite I in H by reflexivity. discriminate.
  - intros now g H. cbn. rewrite H. reflexivity.
  - intros dt now g H. apply update_paused. exact H.
  - intros now g R H. specialize (I g R). unfold pause_ok in I.
    assert (E : paused (start_round now g) = paused g).
    { unfold start_round. destruct g. reflexivity. }
    rewrite E. destruct (paused g); [|reflexivity].
    rewrite I in H by reflexivity. discriminate.
Qed.

Lemma paused_implies_playing_witness :
  playing one_target_paused = true.
Proof.
  apply (proj1 (paused_implies_playing half)).
  - exact one_target_paused_reachable.
  - vm_compute. reflexivity.
Defined.

(** ** Accuracy *)

(** C10: the accuracy of [draw], [hits / max(1, hits + misses) * 100],
    never divides by zero, in any state; in a reachable state without
    clicks it is 0; with at least one click it is
    [hits / (hits + misses) * 100]; the number of timeouts plays no
    part.  In a reachable state, with random values in the unit
    interval, [draw] as a whole never raises. *)
Theorem accuracy_is_total (random : nat -> Q) :
  (forall g, exists a, accuracy g = Ok a) /\
  (forall g,
      reachable random g -> (hits g + misses g = 0)%Z ->
      accuracy g = Ok 0) /\
  (forall g,
      (1 <= hits g + misses g)%Z ->
      accuracy g =
      Ok (inject_Z (hits g) / inject_Z (hits g + misses g) * 100)) /\
  (forall v g, accuracy (set_timeouts v g) = accuracy g) /\
  (forall now g,
      unit_interval random -> reachable random g ->
      exists g', draw now g = Ok g').
Proof.
  pose proof divisor_nonzero as D.
  split; [|split; [|split; [|split]]];
    [| | | |intros now g U R; apply draw_total;
            apply (reachable_lifetimes_ok random U g R)].
  - exact accuracy_defined.
  - intros g R H.
    assert (C : counters_ok g).
    { apply (reachable_ind_steps random counters_ok (counters_closed random));
        [|exact R].
      unfold counters_ok. cbn. lia. }
    destruct C as [C1 C2].
    assert (H0 : hits g = 0%Z) by lia.
    unfold accuracy, truediv. rewrite D. cbn [bind]. rewrite H, H0.
    reflexivity.
  - intros g H. unfold accuracy, truediv. rewrite D. cbn [bind].
    rewrite Z.max_r by exact H. reflexivity.
  - intros v g. destruct g. reflexivity.
Qed.

Lemma accuracy_is_total_witness : accuracy one_target = Ok 0.
Proof.
  apply (proj1 (proj2 (accuracy_is_total half))).
  - exact one_target_reachable.
  - vm_compute. reflexivity.
Defined.

(** ** Expiry *)

(** C7: an [update] during unpaused play removes exactly the targets
    whose age [now - spawn_time] exceeds their lifetime and keeps the
    others, in order and unchanged (followed by the target spawned in
    this call, if any); each removed target costs 3 points, adds one to
    [timeouts] and appends one feedback event at its position. *)
Theorem update_expires_each_target_once (random : nat -> Q)
    (dt now : Q) (g : Game) :
  unit_interval random -> playing g = true -> paused g = false ->
  let dead := filter (expired now) (targets g) in
  let g' := update random dt now g in
  (exists fresh,
      targets g' = filter (alive_at now) (targets g) ++ fresh /\
      (length fresh <= 1)%nat /\
      forall t, In t fresh -> Target.spawn_time t = now) /\
  (forall t, In t (targets g') -> expired now t = false) /\
  score g' = (score g - 3 * Z.of_nat (length dead))%Z /\
  timeouts g' = (timeouts g + Z.of_nat (length dead))%Z /\
  floating_texts g' = floating_texts g ++ map (timeout_text now) dead.
Proof.
  intros U P NP dead g'.
  destruct (update_fields random dt now g P NP)
    as (_ & _ & _ & _ & _ & _ & Sc & Ti & Ft & Ta & _).
  fold g' in Sc, Ti, Ft, Ta.
  set (b := before_expiry random now g) in *.
  assert (B : exists fresh,
             targets b = targets g ++ fresh /\
             (length fresh <= 1)%nat /\
             (forall t, In t fresh ->
                        Target.spawn_time t = now /\ expired now t = false)).
  { destruct (before_expiry_targets random now g) as [E|[_ (t & E & S)]].
    - exists []. fold b in E. rewrite E, app_nil_r.
      split; [reflexivity|]. split; [cbn; lia|]. intros t [].
    - exists [t]. split; [exact E|]. split; [cbn; lia|].
      intros t' [<-|[]]. rewrite S. split.
      + apply spawned_spawn_time.
      + apply spawned_alive. exact U. }
  destruct B as (fresh & E & L & F).
  assert (FA : filter (alive_at now) fresh = fresh).
  { apply forallb_filter_id. apply forallb_forall. intros t I.
    unfold alive_at. destruct (F t I) as [_ ->]. reflexivity. }
  assert (FD : filter (expired now) fresh = []).
  { clear - F. induction fresh as [|t fresh IH]; [reflexivity|].
    cbn. destruct (F t (or_introl eq_refl)) as [_ ->].
    apply IH. intros t' I. apply F. right. exact I. }
  assert (D : filter (expired now) (targets b) = dead).
  { rewrite E, filter_app, FD, app_nil_r. reflexivity. }
  rewrite D in Sc, Ti, Ft.
  split; [|split; [|split; [|split]]].
  - exists fresh. rewrite Ta, E, filter_app, FA.
    split; [reflexivity|]. split; [exact L|].
    intros t I. apply F. exact I.
  - intros t I. rewrite Ta in I. apply filter_In in I. destruct I as [_ I].
    unfold alive_at in I. destruct (expired now t); [discriminate|reflexivity].
  - rewrite Sc. unfold TIMEOUT_SCORE. lia.
  - exact Ti.
  - exact Ft.
Qed.

Lemma update_expires_each_target_once_witness :
  score (update half 0 13 one_target) = (-3)%Z /\
  timeouts (update half 0 13 one_target) = 1%Z.
Proof.
  assert (P : playing one_target = true) by (vm_compute; reflexivity).
  assert (NP : paused one_target = false) by (vm_compute; reflexivity).
  pose proof (update_expires_each_target_once half 0 13 one_target
                half_unit P NP) as H.
  cbv zeta in H. destruct H as (_ & _ & S & T & _).
  rewrite S, T. vm_compute. split; reflexivity.
Defined.

(** ** Round end *)

Section RoundEnd.

Variable random : nat -> Q.

Lemma update_round_continues (dt now : Q) (g : Game) :
  playing g = true -> paused g = false -> now - start_time g < 15 ->
  let g' := update random dt now g in
  playing g' = true /\ paused g' = false /\
  start_time g' = start_time g /\ best_score g' = best_score g.
Proof.
  intros P NP L g'.
  destruct (update_fields random dt now g P NP)
    as (_ & Pa & St & _ & _ & _ & _ & _ & _ & _ & Pl & Be & _).
  fold g' in Pa, St, Pl, Be.
  apply Qle_bool_false_iff in L. rewrite L in Pl, Be.
  rewrite Pa, St, Pl, Be. auto.
Qed.

Lemma update_round_over (dt now : Q) (g : Game) :
  playing g = true -> paused g = false -> 15 <= now - start_time g ->
  let g' := update random dt now g in
  playing g' = false /\
  best_score g' = Z.max (best_score g) (score g').
Proof.
  intros P NP L g'.
  destruct (update_fields random dt now g P NP)
    as (_ & _ & _ & _ & _ & _ & _ & _ & _ & _ & Pl & Be & _).
  fold g' in Pl, Be.
  apply Qle_bool_iff in L. rewrite L in Pl, Be. auto.
Qed.

Lemma updates_not_playing (ticks : list (Q * Q)) (g : Game) :
  playing g = false -> updates random ticks g = g.
Proof.
  intro H. unfold updates. induction ticks as [|tick rest IH]; [reflexivity|].
  cbn [fold_left]. rewrite update_not_playing by exact H. exact IH.
Qed.

Lemma updates_round_continues (ticks : list (Q * Q)) :
  forall g,
    playing g = true -> paused g = false ->
    Forall (fun tick => snd tick - start_time g < 15) ticks ->
    let g' := updates random ticks g in
    playing g' = true /\ paused g' = false /\
    start_time g' = start_time g /\ best_score g' = best_score g.
Proof.
  induction ticks as [|tick rest IH]; intros g P NP F; [cbn; auto|].
  inversion F as [|? ? L F']; subst.
  destruct (update_round_continues (fst tick) (snd tick) g P NP L)
    as (P1 & NP1 & S1 & B1).
  cbv zeta. unfold updates. cbn [fold_left]. fold (updates random rest).
  rewrite <- S1, <- B1. apply IH; [exact P1 | exact NP1 |].
  rewrite S1. exact F'.
Qed.

End RoundEnd.

Lemma handle_click_playing_frame (pos : Q * Q) (now : Q) (g g' : Game) :
  playing g = true -> handle_click pos now g = Ok g' ->
  running g' = running g /\ playing g' = true /\ paused g' = paused g /\
  best_score g' = best_score g /\ start_time g' = start_time g /\
  elapsed g' = elapsed g /\ spawn_interval g' = spawn_interval g /\
  timeouts g' = timeouts g.
Proof.
  intros P E.
  destruct (handle_click_playing pos now g P) as [[_ M]|(i & t & _ & M)];
    rewrite M in E; injection E as <-; frame_step; repeat split;
    solve [reflexivity | exact P].
Qed.

Lemma handle_event_best_score (now : Q) (event : Event) (g g' : Game) :
  handle_event now event g = Ok g' ->
  (event = KEYDOWN K_r /\ best_score g' = 0%Z) \/
  (event <> KEYDOWN K_r /\ best_score g' = best_score g).
Proof.
  intro E. destruct event as [|[| | |]|button pos|]; cbn in E.
  - right. split; [discriminate|]. injection E as <-. destruct g; reflexivity.
  - right. split; [discriminate|]. injection E as <-. destruct g; reflexivity.
  - left. split; [reflexivity|]. injection E as <-. destruct g; reflexivity.
  - right. split; [discriminate|].
    destruct (playing g); injection E as <-; destruct g; reflexivity.
  - right. split; [discriminate|]. injection E as <-. reflexivity.
  - right. split; [discriminate|]. destruct (button =? 1)%Z.
    + destruct (playing g) eqn:P.
      * destruct (handle_click_playing_frame pos now g g' P E)
          as (_ & _ & _ & H & _).
        exact H.
      * rewrite handle_click_not_playing in E by exact P.
        injection E as <-. destruct g. reflexivity.
    + injection E as <-. reflexivity.
  - right. split; [discriminate|]. injection E as <-. reflexivity.
Qed.

Lemma handle_events_best_score (now : Q) (events : list Event) :
  forall g g',
    handle_events now events g = Ok g' ->
    (In (KEYDOWN K_r) events -> best_score g' = 0%Z) /\
    (~ In (KEYDOWN K_r) events -> best_score g' = best_score g) /\
    (best_score g = 0%Z -> best_score g' = 0%Z).
Proof.
  induction events as [|event rest IH]; intros g g' E; cbn in E.
  - injection E as <-. split; [intros []|]. auto.
  - destruct (handle_event now event g) as [g1|e] eqn:E1; cbn in E;
      [|discriminate].
    destruct (IH g1 g' E) as (I1 & I2 & I3).
    destruct (handle_event_best_score now event g g1 E1) as [[-> B]|[N B]].
    + split; [|split].
      * intros _. apply I3. exact B.
      * intro H. exfalso. apply H. left. reflexivity.
      * intros _. apply I3. exact B.
    + split; [|split].
      * intros [H|H]; [congruence|]. apply I1. exact H.
      * intro H. rewrite <- B. apply I2. intro K. apply H. right. exact K.
      * intro Z. apply I3. rewrite B. exact Z.
Qed.

(** C5, as the code has it: with [ROUND_TIME = 15] an unpaused [update]
    of a playing round leaves [playing] set and [best_score] alone while
    [now - start_time] is below 15, and clears [playing] and sets
    [best_score] to [max(best_score, score)] as soon as it is 15 or
    more.  Once the round is over further updates change nothing, so the
    transition happens once; clicks during play, the start of a round
    and [draw] do not write [best_score].  Along a run of updates the
    round is still playing after every tick before second 15, ends at
    the first tick at or after it, and stays as it ended.  The one other
    write is the reset-best key: an R among the events handled sets
    [best_score] to 0, also in the middle of a round; every other event
    leaves it alone. *)
Theorem round_ends_once (random : nat -> Q) :
  (forall dt now g,
      playing g = true -> paused g = false ->
      let g' := update random dt now g in
      (now - start_time g < 15 ->
       playing g' = true /\ best_score g' = best_score g) /\
      (15 <= now - start_time g ->
       playing g' = false /\
       best_score g' = Z.max (best_score g) (score g'))) /\
  (forall dt now g, playing g = false -> update random dt now g = g) /\
  (forall pos now g g',
      playing g = true -> handle_click pos now g = Ok g' ->
      playing g' = true /\ best_score g' = best_score g) /\
  (forall now g, best_score (start_round now g) = best_score g) /\
  (forall before dt now after g,
      playing g = true -> paused g = false ->
      Forall (fun tick => snd tick - start_time g < 15) before ->
      15 <= now - start_time g ->
      let g1 := updates random before g in
      let g2 := update random dt now g1 in
      playing g1 = true /\ best_score g1 = best_score g /\
      playing g2 = false /\
      best_score g2 = Z.max (best_score g) (score g2) /\
      updates random after g2 = g2) /\
  (forall now g g', draw now g = Ok g' -> best_score g' = best_score g) /\
  (forall now event g g',
      handle_event now event g = Ok g' ->
      (event = KEYDOWN K_r /\ best_score g' = 0%Z) \/
      (event <> KEYDOWN K_r /\ best_score g' = best_score g)) /\
  (forall now events g g',
      handle_events now events g = Ok g' ->
      (In (KEYDOWN K_r) events -> best_score g' = 0%Z) /\
      (~ In (KEYDOWN K_r) events -> best_score g' = best_score g)).
Proof.
  split; [|split; [|split; [|split; [|split; [|split; [|split]]]]]].
  - intros dt now g P NP g'. split; intro L.
    + destruct (update_round_continues random dt now g P NP L)
        as (H1 & _ & _ & H2).
      auto.
    + apply update_round_over; assumption.
  - intros dt now g H. apply update_not_playing. exact H.
  - intros pos now g g' P E.
    destruct (handle_click_playing_frame pos now g g' P E)
      as (_ & H1 & _ & H2 & _).
    auto.
  - intros now g. unfold start_round. destruct g. reflexivity.
  - intros before dt now after g P NP F L g1 g2.
    destruct (updates_round_continues random before g P NP F)
      as (P1 & NP1 & S1 & B1).
    fold g1 in P1, NP1, S1, B1. rewrite <- S1 in L.
    destruct (update_round_over random dt now g1 P1 NP1 L) as (P2 & B2).
    fold g2 in P2, B2.
    repeat split; try assumption.
    + rewrite B2, B1. reflexivity.
    + apply updates_not_playing. exact P2.
  - intros now g g' E. apply draw_ok in E. subst g'. destruct g. reflexivity.
  - exact handle_event_best_score.
  - intros now events g g' E.
    destruct (handle_events_best_score now events g g' E) as (H1 & H2 & _).
    split; assumption.
Qed.

Lemma round_ends_once_witness :
  playing (update half 0 26 one_target) = false /\
  best_score (update half 0 26 one_target) = 0%Z.
Proof.
  assert (P : playing one_target = true) by (vm_compute; reflexivity).
  assert (NP : paused one_target = false) by (vm_compute; reflexivity).
  assert (L : 15 <= 26 - start_time one_target)
    by (vm_compute; discriminate).
  destruct (proj2 (proj1 (round_ends_once half) 0 26 one_target P NP) L)
    as [H1 H2].
  split; [exact H1|]. rewrite H2. vm_compute. reflexivity.
Defined.

Lemma second_round_reachable : reachable half second_round.
Proof.
  exists [CallStartRound 10; CallUpdate 0 11; CallHandleClick (450, 320) 12;
          CallUpdate 0 26; CallHandleClick (0, 0) 30].
  vm_compute. reflexivity.
Qed.

(** C5 fails on the code as it was worded: [second_round] is a reachable
    state in the middle of a round with a best score of 10; the R key
    sets the best score to 0 there and the round goes on playing, so
    [best_score] is written at a point that is not the end of the
    round. *)
Lemma reset_best_key_writes_mid_round :
  playing second_round = true /\ best_score second_round = 10%Z /\
  exists g',
    handle_events 31 [KEYDOWN K_r] second_round = Ok g' /\
    playing g' = true /\ best_score g' = 0%Z /\
    best_score g' <> best_score second_round.
Proof.
  split; [vm_compute; reflexivity|]. split; [vm_compute; reflexivity|].
  eexists. split; [vm_compute; reflexivity|].
  split; [vm_compute; reflexivity|]. split; [vm_compute; reflexivity|].
  vm_compute. discriminate.
Qed.

(** ** Clock values and pausing *)

Lemma update_running_elapsed (random : nat -> Q) (dt now : Q) (g : Game) :
  playing g = true -> paused g = false ->
  elapsed (update random dt now g) = now - start_time g.
Proof.
  intros P NP.
  destruct (update_fields random dt now g P NP) as (_ & _ & _ & E & _).
  exact E.
Qed.

Lemma update_running_targets (random : nat -> Q) (dt now : Q) (g : Game) :
  playing g = true -> paused g = false ->
  forall t,
    In t (targets g) ->
    In t (targets (update random dt now g)) <-> expired now t = false.
Proof.
  intros P NP t I.
  destruct (update_fields random dt now g P NP)
    as (_ & _ & _ & _ & _ & _ & _ & _ & _ & T & _).
  rewrite T, filter_In. unfold alive_at. split.
  - intros [_ A]. destruct (expired now t); [discriminate|reflexivity].
  - intro A. rewrite A. split; [|reflexivity].
    destruct (before_expiry_targets random now g) as [E|[_ (t' & E & _)]];
      rewrite E; [exact I|].
    apply in_or_app. left. exact I.
Qed.


(** C1, as the code has it: a paused game is returned unchanged by every
    [update].  The pause does not stop the clock: the first [update]
    after the pause flag is cleared stores [elapsed = now - start_time]
    and keeps exactly the targets with [now - spawn_time <= lifetime],
    both measured with the clock value [now] of that call. *)
Theorem pause_suspends_update_only (random : nat -> Q) :
  (forall dt now g, paused g = true -> update random dt now g = g) /\
  (forall dt now g,
      playing g = true -> paused g = true ->
      let g' := update random dt now (set_paused false g) in
      elapsed g' = now - start_time g /\
      forall t,
        In t (targets g) ->
        In t (targets g') <-> expired now t = false).
Proof.
  split.
  - intros dt now g H. apply update_paused. exact H.
  - intros dt now g P Pa g'.
    assert (P' : playing (set_paused false g) = true)
      by (destruct g; exact P).
    assert (NP : paused (set_paused false g) = false)
      by (destruct g; reflexivity).
    assert (S : start_time (set_paused false g) = start_time g)
      by (destruct g; reflexivity).
    split.
    + unfold g'. rewrite update_running_elapsed by assumption.
      rewrite S. reflexivity.
    + intros t I. unfold g'.
      apply update_running_targets; assumption.
Qed.

Lemma pause_suspends_update_only_witness :
  update half (1 # 100) 20 one_target_paused = one_target_paused /\
  elapsed (update half (1 # 100) 20 (set_paused false one_target_paused))
  = 20 - start_time one_target_paused.
Proof.
  split.
  - apply (proj1 (pause_suspends_update_only half)). vm_compute. reflexivity.
  - apply (proj2 (pause_suspends_update_only half));
      vm_compute; reflexivity.
Defined.

(** C1 fails on the code: the round of [one_target_paused] was paused at
    elapsed time 1 with a target of age 0 and lifetime 1.5.  When the
    pause is cleared nine seconds later, the first update, with a frame
    delta of 0.01, jumps to elapsed time 10 and expires the target. *)
Lemma pause_time_is_counted :
  playing one_target_paused = true /\ paused one_target_paused = true /\
  ~ elapsed_continues half (1 # 100) 20 one_target_paused /\
  ~ ages_continue half (1 # 100) 20 one_target_paused.
Proof.
  split; [vm_compute; reflexivity|].
  split; [vm_compute; reflexivity|].
  split.
  - unfold elapsed_continues. vm_compute. intro H. apply H. reflexivity.
  - unfold ages_continue. intro H.
    specialize (H first_target).
    assert (I : In first_target
                  (targets one_target_paused)).
    { vm_compute. left. reflexivity. }
    assert (L : start_time one_target_paused + elapsed one_target_paused
                - Target.spawn_time first_target
                + (1 # 100)
                <= Target.lifetime first_target).
    { vm_compute. discriminate. }
    specialize (H I L). vm_compute in H.
    destruct H as [H|[]]. discriminate.
Qed.

(** ** Clicks *)

Lemma in_outer_iff (pos : Q * Q) (t : Target.t) :
  in_outer pos t = true <-> dist2 pos t <= (Target.r t * 1) ^ 2.
Proof. unfold in_outer. apply Qle_bool_iff. Qed.

Lemma ring_award_thresholds (pos : Q * Q) (t : Target.t) :
  ring_award (ring_of pos t) =
  if Qle_bool (dist2 pos t) ((Target.r t * (25 # 100)) ^ 2) then 10%Z
  else if Qle_bool (dist2 pos t) ((Target.r t * (55 # 100)) ^ 2) then 5%Z
       else 1%Z.
Proof.
  unfold ring_of.
  change (RING_FRACS_at 0) with (25 # 100).
  change (RING_FRACS_at 1) with (55 # 100).
  destruct (Qle_bool _ _); [reflexivity|].
  destruct (Qle_bool _ _); reflexivity.
Qed.

Lemma hit_state_fields (pos : Q * Q) (now : Q) (i : nat) (t : Target.t)
    (g : Game) :
  let g' := hit_state pos now i t g in
  targets g' = remove_at i (targets g) /\
  score g' = (score g + ring_award (ring_of pos t))%Z /\
  hits g' = (hits g + 1)%Z /\ misses g' = misses g /\
  floating_texts g' = floating_texts g ++ [hit_text pos now t] /\
  paused g' = paused g /\ playing g' = playing g.
Proof. cbv zeta. frame_step. repeat split. Qed.

Lemma miss_state_fields (pos : Q * Q) (now : Q) (g : Game) :
  let g' := miss_state pos now g in
  targets g' = targets g /\
  score g' = (score g - 5)%Z /\
  hits g' = hits g /\ misses g' = (misses g + 1)%Z /\
  floating_texts g' = floating_texts g ++ [miss_text pos now] /\
  paused g' = paused g /\ playing g' = playing g.
Proof. cbv zeta. frame_step. repeat split. Qed.

(** C2: for a click during play in a reachable state.  If the outer
    ring of some target contains the click (squared distance at most
    [(r * 1.00)^2]), the click hits the target [t] at an index [i] of
    the live list that is closest to the click among the targets whose
    outer ring contains it (the first such target of the list on equal
    distances): exactly that entry is removed, [hits] grows by one and
    the score by 10, 5 or 1 according to the innermost of the thresholds
    [r * 0.25], [r * 0.55], [r * 1.00] that the squared distance of [t]
    meets.  If no outer ring contains the click, the live list is kept,
    the score drops by 5 and [misses] grows by one. *)
Theorem click_hits_closest_target (random : nat -> Q) (pos : Q * Q)
    (now : Q) (g : Game) :
  unit_interval random -> reachable random g -> playing g = true ->
  ((exists t, In t (targets g) /\ dist2 pos t <= (Target.r t * 1) ^ 2) ->
   exists i t g',
     handle_click pos now g = Ok g' /\
     nth_error (targets g) i = Some t /\
     dist2 pos t <= (Target.r t * 1) ^ 2 /\
     (forall j t',
         nth_error (targets g) j = Some t' ->
         dist2 pos t' <= (Target.r t' * 1) ^ 2 ->
         dist2 pos t <= dist2 pos t' /\
         ((j < i)%nat -> dist2 pos t < dist2 pos t')) /\
     targets g' = remove_at i (targets g) /\
     S (length (targets g')) = length (targets g) /\
     hits g' = (hits g + 1)%Z /\ misses g' = misses g /\
     score g' =
       (score g +
        if Qle_bool (dist2 pos t) ((Target.r t * (25 # 100)) ^ 2) then 10
        else if Qle_bool (dist2 pos t) ((Target.r t * (55 # 100)) ^ 2)
             then 5
             else 1)%Z) /\
  ((forall t, In t (targets g) -> ~ dist2 pos t <= (Target.r t * 1) ^ 2) ->
   exists g',
     handle_click pos now g = Ok g' /\
     targets g' = targets g /\
     score g' = (score g - 5)%Z /\
     misses g' = (misses g + 1)%Z /\ hits g' = hits g).
Proof.
  intros U R P.
  assert (W : radii_ok g).
  { apply (reachable_ind_steps random radii_ok (radii_closed random U));
      [|exact R].
    unfold radii_ok. cbn. constructor. }
  unfold radii_ok in W. rewrite Forall_forall in W.
  destruct (handle_click_playing pos now g P) as [[F M]|(i & t & C & M)].
  - split.
    + intros (t & I & O). exfalso. apply in_outer_iff in O.
      pose proof (radius_ok_outer pos t (W t I) O).
      specialize (F t I O). lra.
    + intros _. exists (miss_state pos now g).
      destruct (miss_state_fields pos now g) as (H1 & H2 & H3 & H4 & _).
      auto.
  - destruct C as (N & O & L & Min). split.
    + intros _. exists i, t, (hit_state pos now i t g).
      destruct (hit_state_fields pos now i t g) as (H1 & H2 & H3 & H4 & _).
      split; [exact M|]. split; [exact N|].
      split; [apply in_outer_iff; exact O|].
      split.
      { intros j t' N' O'. apply Min; [exact N'|].
        apply in_outer_iff. exact O'. }
      split; [exact H1|]. split.
      { rewrite H1. apply remove_at_length_lt.
        apply nth_error_Some. congruence. }
      split; [exact H3|]. split; [exact H4|].
      rewrite H2, ring_award_thresholds. reflexivity.
    + intro No. exfalso. apply (No t).
      * apply nth_error_In with (n := i). exact N.
      * apply in_outer_iff. exact O.
Qed.

Lemma click_hits_closest_target_witness :
  exists i t g',
    handle_click (450, 324) 12 one_target = Ok g' /\
    nth_error (targets one_target) i = Some t /\
    score g' = (score one_target + 10)%Z.
Proof.
  assert (P : playing one_target = true) by (vm_compute; reflexivity).
  destruct (proj1 (click_hits_closest_target half (450, 324) 12 one_target
                     half_unit one_target_reachable P))
    as (i & t & g' & H & N & O & _ & _ & _ & _ & _ & S).
  - exists first_target. split.
    + vm_compute. left. reflexivity.
    + vm_compute. discriminate.
  - exists i, t, g'. split; [exact H|]. split; [exact N|].
    rewrite S.
    assert (E : t = first_target).
    { destruct i as [|i]; vm_compute in N.
      - injection N as <-. vm_compute. reflexivity.
      - destruct i; discriminate. }
    rewrite E. vm_compute. reflexivity.
Defined.

Lemma handle_click_set_paused (b : bool) (pos : Q * Q) (now : Q) (g : Game) :
  handle_click pos now (set_paused b g) =
  (g' <- handle_click pos now g ;; Ok (set_paused b g')).
Proof.
  destruct g. unfold handle_click, set_paused.
  cbn [playing targets score hits floating_texts].
  destruct playing0; cbn [negb bind]; [|reflexivity].
  destruct pos as [mx my]. set (s := scan mx my targets0).
  destruct (0 <=? hit_index s)%Z; destruct (ring_idx_for_hit s);
    try reflexivity.
  destruct (pop targets0 _) as [[t' rest]|e]; cbn [bind]; [|reflexivity].
  destruct (index RING_SCORES n) as [award|e]; cbn [bind]; reflexivity.
Qed.

(** C9: [handle_click] does not read the pause flag: clicking a game
    whose flag is set to any value gives the result of clicking the game
    itself, with the flag set the same way.  In a playing, paused state,
    where [update] does nothing, a click is resolved as always: either it
    hits the closest target, which is removed, with the ring's points
    added to the score, [hits] incremented and a feedback event appended
    at the target; or it misses, costing 5 points, incrementing [misses]
    and appending a feedback event at the click. *)
Theorem click_ignores_pause (random : nat -> Q) (pos : Q * Q) (now : Q)
    (g : Game) :
  (forall b,
      handle_click pos now (set_paused b g) =
      (g' <- handle_click pos now g ;; Ok (set_paused b g'))) /\
  (playing g = true -> paused g = true ->
   (forall dt, update random dt now g = g) /\
   exists g',
     handle_click pos now g = Ok g' /\ paused g' = true /\
     ((exists i t,
          closest_hit pos (targets g) i t /\
          targets g' = remove_at i (targets g) /\
          score g' = (score g + ring_award (ring_of pos t))%Z /\
          hits g' = (hits g + 1)%Z /\
          floating_texts g' = floating_texts g ++ [hit_text pos now t])
      \/
      ((forall t,
           In t (targets g) -> in_outer pos t = true -> FAR <= dist2 pos t) /\
       targets g' = targets g /\
       score g' = (score g - 5)%Z /\
       misses g' = (misses g + 1)%Z /\
       floating_texts g' = floating_texts g ++ [miss_text pos now]))).
Proof.
  split.
  - intro b. apply handle_click_set_paused.
  - intros P Pa. split.
    + intro dt. apply update_paused. exact Pa.
    + destruct (handle_click_playing pos now g P)
        as [[F M]|(i & t & C & M)].
      * exists (miss_state pos now g).
        destruct (miss_state_fields pos now g)
          as (H1 & H2 & H3 & H4 & H5 & H6 & _).
        split; [exact M|]. split; [congruence|]. right. auto.
      * exists (hit_state pos now i t g).
        destruct (hit_state_fields pos now i t g)
          as (H1 & H2 & H3 & H4 & H5 & H6 & _).
        split; [exact M|]. split; [congruence|]. left.
        exists i, t. auto.
Qed.

Lemma click_ignores_pause_witness :
  exists g',
    handle_click (450, 324) 12 one_target_paused = Ok g' /\ paused g' = true.
Proof.
  assert (P : playing one_target_paused = true) by (vm_compute; reflexivity).
  assert (Pa : paused one_target_paused = true) by (vm_compute; reflexivity).
  destruct (proj2 (click_ignores_pause half (450, 324) 12 one_target_paused)
              P Pa) as (_ & g' & H & H' & _).
  exists g'. split; assumption.
Defined.

(** ** Difficulty ramp *)

Lemma clamp_mono (v1 v2 lo hi : Q) :
  v1 <= v2 -> clamp v1 lo hi <= clamp v2 lo hi.
Proof.
  intro H. unfold clamp, py_max, py_min.
  destruct (Qlt_bool v1 hi) eqn:E1; destruct (Qlt_bool v2 hi) eqn:E2;
    try apply Qlt_bool_iff in E1; try apply Qlt_bool_iff in E2;
    try apply Qlt_bool_false_iff in E1; try apply Qlt_bool_false_iff in E2;
    repeat match goal with
           | |- context [Qlt_bool ?a ?b] =>
               let E := fresh "E" in
               destruct (Qlt_bool a b) eqn:E;
               [apply Qlt_bool_iff in E | apply Qlt_bool_false_iff in E]
           end;
    lra.
Qed.

Lemma ramp_comp (t1 t2 : Q) : t1 == t2 -> ramp t1 = ramp t2.
Proof.
  intro H. unfold ramp.
  replace (Qfloor (t2 / 5)) with (Qfloor (t1 / 5)); [reflexivity|].
  apply Qfloor_comp. rewrite H. reflexivity.
Qed.

Lemma ramp_mono (t1 t2 : Q) : t1 <= t2 -> ramp t2 <= ramp t1.
Proof.
  intro H. unfold ramp. apply clamp_mono.
  assert (F : (Qfloor (t1 / 5) <= Qfloor (t2 / 5))%Z).
  { apply Qfloor_resp_le. unfold Qdiv. apply Qmult_le_compat_r; [exact H|].
    vm_compute. discriminate. }
  rewrite Zle_Qle in F. lra.
Qed.

Lemma ramp_bounds (t : Q) : 35 # 100 <= ramp t <= 85 # 100.
Proof. unfold ramp. apply clamp_bounds. lra. Qed.

Lemma ramp_ok_later (t now : Q) (g : Game) :
  ramp_ok t g -> t <= now -> ramp_ok now g.
Proof.
  intros [H1 H2] L. split; [exact H1|].
  intro P. destruct (H2 P) as (A & B & C). repeat split; lra.
Qed.

Section Ramp.

Variable random : nat -> Q.

Lemma before_expiry_spawn_interval (now : Q) (g : Game) :
  spawn_interval (before_expiry random now g) =
  if Qlt_bool 0 (now - start_time g) then ramp (now - start_time g)
  else spawn_interval g.
Proof.
  unfold before_expiry, update_spawn, update_difficulty, spawn_target.
  destruct g. unfold_setters.
  change (negb (SPAWN_ACCEL_EVERY =? 0)%Z) with true. cbn [andb].
  destruct (Qlt_bool 0 (now - start_time0)); unfold_setters;
    match goal with
    | |- context [if ?c then _ else _] => destruct c
    end; reflexivity.
Qed.

Lemma update_running_spawn_interval (dt now : Q) (g : Game) :
  playing g = true -> paused g = false ->
  spawn_interval (update random dt now g) =
  if Qlt_bool 0 (now - start_time g) then ramp (now - start_time g)
  else spawn_interval g.
Proof.
  intros P NP.
  destruct (update_fields random dt now g P NP)
    as (_ & _ & _ & _ & _ & _ & _ & _ & _ & _ & _ & _ & S & _).
  rewrite S. apply before_expiry_spawn_interval.
Qed.

Lemma ramp_closed (now : Q) : step_closed_at random now (ramp_ok now).
Proof.
  unfold ramp_ok. split.
  - intros g _. split; [vm_compute; reflexivity|]. cbn. discriminate.
  - intros g _. frame_step. split; [vm_compute; reflexivity|].
    intros _. repeat split; lra.
  - intros dt g [H1 H2].
    destruct (update_cases random dt now g) as [->|[P NP]]; [auto|].
    destruct (H2 P) as (A & B & C).
    destruct (update_fields random dt now g P NP)
      as (_ & _ & St & El & _).
    rewrite (update_running_spawn_interval dt now g P NP), St, El.
    split; [|intros _; repeat split; lra].
    destruct (Qlt_bool 0 (now - start_time g)) eqn:E; [reflexivity|].
    apply Qlt_bool_false_iff in E.
    rewrite H1, (ramp_comp (elapsed g) (now - start_time g)); [reflexivity|].
    lra.
  - intros pos g H P. frame_step. exact H.
  - intros pos i t g H P _. frame_step. exact H.
  - intros b g H P. frame_step. exact H.
  - intros v g H. frame_step. exact H.
  - intros b g H. frame_step. exact H.
  - intros fts g H. frame_step. exact H.
Qed.

Lemma calls_ramp_ok (cs : list Call) :
  forall t g g',
    ramp_ok t g -> monotone_clock t cs -> calls random cs g = Ok g' ->
    exists t', ramp_ok t' g'.
Proof.
  induction cs as [|c rest IH]; intros t g g' H M E; cbn in E.
  - injection E as <-. exists t. exact H.
  - destruct (call random c g) as [g1|e] eqn:E1; cbn in E; [|discriminate].
    cbn [monotone_clock] in M. destruct (call_now c) as [now|] eqn:N.
    + destruct M as [L M]. apply (IH now g1 g'); [|exact M|exact E].
      apply (call_preserves random (ramp_ok now) now (ramp_closed now) c g g1);
        auto.
      apply ramp_ok_later with (t := t); assumption.
    + apply (IH t g1 g'); [|exact M|exact E].
      apply (call_preserves random (ramp_ok t) t (ramp_closed t) c g g1);
        auto.
Qed.

End Ramp.

(** C4: whenever the clock does not run backwards, the stored spawn
    interval is [clamp(0.85 - floor(t / 5) * 0.04, 0.35, 0.85)] for the
    stored elapsed round time [t] in every state the calls reach; an
    unpaused update of a playing round at a positive elapsed time [t]
    stores exactly that value for [t = now - start_time].  The ramp is
    non-increasing in [t], stays within [0.35, 0.85], is 0.77 at 12
    seconds, and every round start stores 0.85 again. *)
Theorem spawn_interval_follows_ramp (random : nat -> Q) :
  (forall t0 cs g,
      monotone_clock t0 cs -> calls random cs new_game = Ok g ->
      spawn_interval g == ramp (elapsed g)) /\
  (forall dt now g,
      playing g = true -> paused g = false -> 0 < now - start_time g ->
      spawn_interval (update random dt now g) = ramp (now - start_time g) /\
      elapsed (update random dt now g) = now - start_time g) /\
  (forall t1 t2, t1 <= t2 -> ramp t2 <= ramp t1) /\
  (forall t, 35 # 100 <= ramp t <= 85 # 100) /\
  ramp 12 == 77 # 100 /\
  (forall now g, spawn_interval (start_round now g) = 85 # 100).
Proof.
  split; [|split; [|split; [|split; [|split]]]].
  - intros t0 cs g M E.
    assert (I : ramp_ok t0 new_game).
    { split; [vm_compute; reflexivity|]. cbn. discriminate. }
    destruct (calls_ramp_ok random cs t0 new_game g I M E) as (t' & H & _).
    exact H.
  - intros dt now g P NP L.
    rewrite (update_running_spawn_interval random dt now g P NP).
    apply Qlt_bool_iff in L. rewrite L. split; [reflexivity|].
    apply update_running_elapsed; assumption.
  - exact ramp_mono.
  - exact ramp_bounds.
  - vm_compute. reflexivity.
  - intros now g. unfold start_round. destruct g. reflexivity.
Qed.

Lemma spawn_interval_follows_ramp_witness :
  spawn_interval (update half 0 22 round_started)
  == ramp (elapsed (update half 0 22 round_started)).
Proof.
  apply (proj1 (spawn_interval_follows_ramp half) 0
           [CallStartRound 10; CallUpdate 0 22]).
  - cbn. repeat split; lra.
  - vm_compute. reflexivity.
Defined.

(** * Further properties of the code *)

Lemma one_timeout_reachable : reachable half one_timeout.
Proof.
  exists [CallStartRound 10; CallUpdate 0 11; CallUpdate 0 13].
  vm_compute. reflexivity.
Qed.

Lemma one_miss_reachable : reachable half one_miss.
Proof.
  exists [CallStartRound 10; CallUpdate 0 11; CallHandleClick (10, 100) 12].
  vm_compute. reflexivity.
Qed.

(** ** Induction over elementary transitions *)

Section Transitions.

Variable random : nat -> Q.
Variable P : Game -> Prop.
Hypothesis step :
  forall now g g', P g -> transition random now g g' -> P g'.

Lemma handle_click_transitions (pos : Q * Q) (now : Q) (g g' : Game) :
  P g -> handle_click pos now g = Ok g' -> P g'.
Proof.
  intros H E. destruct (playing g) eqn:Pl.
  - destruct (handle_click_playing pos now g Pl) as [[_ M]|(i & t & C & M)];
      rewrite M in E; injection E as <-; apply (step now g); trivial.
    + apply t_miss. exact Pl.
    + apply t_hit; assumption.
  - rewrite handle_click_not_playing in E by exact Pl. injection E as <-.
    apply (step now g); [exact H | apply t_start_round].
Qed.

Lemma handle_events_transitions (now : Q) (events : list Event) :
  forall g g', P g -> handle_events now events g = Ok g' -> P g'.
Proof.
  induction events as [|event rest IH]; intros g g' H E; cbn in E.
  - injection E as <-. exact H.
  - destruct (handle_event now event g) as [g1|e] eqn:E1; cbn in E;
      [|discriminate].
    apply (IH g1); [|exact E]. clear IH E.
    destruct event as [|[| | |]|button pos|]; cbn in E1.
    + injection E1 as <-. apply (step now g); [exact H | apply t_quit].
    + injection E1 as <-. apply (step now g); [exact H | apply t_quit].
    + injection E1 as <-. apply (step now g); [exact H | apply t_reset_best].
    + destruct (playing g) eqn:Pl; injection E1 as <-; [|exact H].
      apply (step now g); [exact H | apply t_pause; exact Pl].
    + injection E1 as <-. exact H.
    + destruct (button =? 1)%Z.
      * eapply handle_click_transitions; eassumption.
      * injection E1 as <-. exact H.
    + injection E1 as <-. exact H.
Qed.

Lemma call_transitions (c : Call) (g g' : Game) :
  P g -> call random c g = Ok g' -> P g'.
Proof.
  intros H E. destruct c; cbn in E.
  - injection E as <-. apply (step 0 g); [exact H | apply t_reset].
  - injection E as <-. apply (step now g); [exact H | apply t_start_round].
  - injection E as <-. apply (step now g); [exact H | apply t_update].
  - eapply handle_click_transitions; eassumption.
  - eapply handle_events_transitions; eassumption.
  - apply draw_ok in E. subst g'.
    apply (step now g); [exact H | apply t_prune].
Qed.

Lemma calls_transitions (cs : list Call) :
  forall g g', P g -> calls random cs g = Ok g' -> P g'.
Proof.
  induction cs as [|c rest IH]; intros g g' H E; cbn in E.
  - injection E as <-. exact H.
  - destruct (call random c g) as [g1|e] eqn:E1; cbn in E; [|discriminate].
    apply (IH g1); [|exact E].
    eapply call_transitions; eassumption.
Qed.

Lemma reachable_transitions (g : Game) :
  P new_game -> reachable random g -> P g.
Proof.
  intros H [cs E]. eapply calls_transitions; eassumption.
Qed.

End Transitions.

(** ** Score, best score and feedback events *)

Section Bookkeeping.

Variable random : nat -> Q.


Lemma best_score_step (now : Q) (g g' : Game) :
  (0 <= best_score g)%Z -> transition random now g g' ->
  (0 <= best_score g')%Z.
Proof.
  intros H T. destruct T.
  - cbn. lia.
  - frame_step. exact H.
  - destruct (update_cases random dt now g) as [->|[P NP]]; [exact H|].
    destruct (update_fields random dt now g P NP)
      as (_ & _ & _ & _ & _ & _ & _ & _ & _ & _ & _ & -> & _).
    destruct (Qle_bool 15 (now - start_time g)); lia.
  - frame_step. exact H.
  - frame_step. exact H.
  - frame_step. exact H.
  - frame_step. lia.
  - frame_step. exact H.
  - frame_step. exact H.
Qed.

Lemma hit_text_ok (pos : Q * Q) (now : Q) (t : Target.t) :
  feedback_ok (hit_text pos now t).
Proof.
  unfold feedback_ok, hit_text.
  destruct (ring_of_cases pos t) as [R|[R|R]]; rewrite R; cbn; auto.
Qed.

Lemma feedback_step (now : Q) (g g' : Game) :
  Forall feedback_ok (floating_texts g) -> transition random now g g' ->
  Forall feedback_ok (floating_texts g').
Proof.
  intros H T. destruct T.
  - cbn. constructor.
  - frame_step. constructor.
  - destruct (update_cases random dt now g) as [->|[P NP]]; [exact H|].
    destruct (update_fields random dt now g P NP)
      as (_ & _ & _ & _ & _ & _ & _ & _ & -> & _).
    apply Forall_app. split; [exact H|].
    apply Forall_forall. intros ft I. apply in_map_iff in I.
    destruct I as (t & <- & _). unfold feedback_ok, timeout_text. cbn.
    repeat right. auto.
  - assert (F : feedback_ok (miss_text pos now)).
    { unfold feedback_ok, miss_text. cbn. right. right. right. left. auto. }
    frame_step. apply Forall_app. split; [exact H|]. constructor; auto.
  - pose proof (hit_text_ok pos now t) as F.
    frame_step. apply Forall_app. split; [exact H|]. constructor; auto.
  - frame_step. exact H.
  - frame_step. exact H.
  - frame_step. exact H.
  - assert (F : Forall feedback_ok (ft_alive now (floating_texts g))).
    { apply Forall_forall. intros ft I. apply filter_In in I.
      rewrite Forall_forall in H. apply H. apply I. }
    frame_step. exact F.
Qed.

End Bookkeeping.



(** X2: the best score is never negative in a reachable state, however
    low the score of a finished round was: it starts at 0, a round end
    only raises it, and the reset-best key puts it back to 0. *)
Theorem best_score_never_negative (random : nat -> Q) (g : Game) :
  reachable random g -> (0 <= best_score g)%Z.
Proof.
  intro R.
  apply (reachable_transitions random (fun g => (0 <= best_score g)%Z));
    [| |exact R].
  - intros now g0 g1. apply best_score_step.
  - cbn. lia.
Qed.

Lemma best_score_never_negative_witness : (0 <= best_score one_target)%Z.
Proof.
  apply (best_score_never_negative half one_target one_target_reachable).
Defined.

(** X3: every feedback event of a reachable state is one of the five the
    game creates: "+10" in green, "+5" in cyan, "+1" in white, "-5" in
    red (miss) or "-3" in red (timeout). *)
Theorem feedback_events_are_known (random : nat -> Q) (g : Game) :
  reachable random g -> Forall feedback_ok (floating_texts g).
Proof.
  intro R.
  apply (reachable_transitions random
           (fun g => Forall feedback_ok (floating_texts g))); [| |exact R].
  - intros now g0 g1. apply feedback_step.
  - cbn. constructor.
Qed.

Lemma feedback_events_are_known_witness :
  Forall feedback_ok (floating_texts one_miss).
Proof.
  apply (feedback_events_are_known half one_miss one_miss_reachable).
Defined.

(** ** Placement and spacing of the targets *)

Lemma StronglySorted_snoc {A : Type} (R : A -> A -> Prop) (l : list A)
    (b : A) :
  StronglySorted R l -> Forall (fun a => R a b) l ->
  StronglySorted R (l ++ [b]).
Proof.
  induction l as [|a l IH]; intros S F; cbn.
  - constructor; constructor.
  - inversion S as [|? ? S' Fa]; subst. inversion F as [|? ? Rab F']; subst.
    constructor; [apply IH; assumption|].
    apply Forall_app. split; [exact Fa|]. constructor; [exact Rab|constructor].
Qed.

Lemma StronglySorted_filter {A : Type} (R : A -> A -> Prop)
    (f : A -> bool) (l : list A) :
  StronglySorted R l -> StronglySorted R (filter f l).
Proof.
  induction l as [|a l IH]; intro S; cbn; [constructor|].
  inversion S as [|? ? S' Fa]; subst.
  destruct (f a); [|apply IH; exact S'].
  constructor; [apply IH; exact S'|].
  apply Forall_forall. intros b I. apply filter_In in I.
  rewrite Forall_forall in Fa. apply Fa. apply I.
Qed.

Lemma StronglySorted_remove_at {A : Type} (R : A -> A -> Prop) (l : list A) :
  forall i, StronglySorted R l -> StronglySorted R (remove_at i l).
Proof.
  induction l as [|a l IH]; intros i Hs.
  - destruct i; exact Hs.
  - inversion Hs as [|? ? Hs' Fa]; subst. destruct i as [|i].
    + exact Hs'.
    + change (remove_at (S i) (a :: l)) with (a :: remove_at i l).
      constructor; [apply IH; exact Hs'|].
      apply Forall_forall. intros b I. apply remove_at_incl in I.
      rewrite Forall_forall in Fa. apply Fa. exact I.
Qed.

Lemma Forall_sub {A : Type} (Q' : A -> Prop) (l l' : list A) :
  (forall a, In a l' -> In a l) -> Forall Q' l -> Forall Q' l'.
Proof.
  intros I F. apply Forall_forall. intros a H.
  rewrite Forall_forall in F. apply F. apply I. exact H.
Qed.

(** Oldest first and spaced by [d]: the list spans [d] per further
    element below any bound on the spawn times. *)
Lemma spawn_gap_span (l : list Target.t) :
  forall (a : Target.t) (M : Q),
    StronglySorted spawn_gap (a :: l) ->
    Forall (fun t => Target.spawn_time t <= M) (a :: l) ->
    Target.spawn_time a + (35 # 100) * inject_Z (Z.of_nat (length l)) <= M.
Proof.
  induction l as [|b l IH]; intros a M S F.
  - inversion F as [|? ? La _]; subst. cbn [length].
    change (inject_Z (Z.of_nat 0)) with 0. lra.
  - inversion S as [|? ? S' Fa]; subst. inversion F as [|? ? _ F']; subst.
    specialize (IH b M S' F').
    inversion Fa as [|? ? G _]; subst. unfold spawn_gap in G.
    cbn [length]. rewrite Nat2Z.inj_succ. unfold Z.succ.
    rewrite inject_Z_plus. change (inject_Z 1) with 1. lra.
Qed.

Section Spacing.

Variable random : nat -> Q.

(** The spawn block of [update] either leaves the target list alone or
    appends one target and records the clock value in [last_spawn]. *)
Lemma before_expiry_cases (now : Q) (g : Game) :
  let b := before_expiry random now g in
  let c := Qle_bool (spawn_interval b) (now - last_spawn g)
           && (length (targets g) <? MAX_TARGETS_ON_SCREEN)%nat in
  (c = false /\ targets b = targets g /\ last_spawn b = last_spawn g /\
   draws b = draws g) \/
  (c = true /\
   (exists t, targets b = targets g ++ [t] /\ Target.spawn_time t = now /\
              (unit_interval random -> target_ok t)) /\
   last_spawn b = now /\ draws b = (draws g + 4)%nat).
Proof.
  assert (K : forall g1 : Game,
             unit_interval random -> target_ok (spawned random now g1)).
  { intros g1 U. unfold spawned, spawn_target. destruct g1. unfold_setters.
    rewrite last_last. unfold target_ok. cbn [Target.x Target.y Target.r
      Target.lifetime]. unfold uniform, TARGET_LIFETIME, TARGET_MIN_RADIUS,
      TARGET_MAX_RADIUS, WIDTH, HEIGHT, inject_Z.
    pose proof (U draws0) as [A0 B0].
    pose proof (U (draws0 + 1)%nat) as [A1 B1].
    pose proof (U (draws0 + 2)%nat) as [A2 B2].
    pose proof (U (draws0 + 3)%nat) as [A3 B3].
    set (u0 := random draws0) in *. set (u1 := random (draws0 + 1)%nat) in *.
    set (u2 := random (draws0 + 2)%nat) in *.
    set (u3 := random (draws0 + 3)%nat) in *.
    clearbody u0 u1 u2 u3.
    assert (R1 : 16 <= 16 + (36 - 16) * u0) by lra.
    assert (R2 : 16 + (36 - 16) * u0 <= 36) by lra.
    set (r := 16 + (36 - 16) * u0) in *. clearbody r.
    repeat split; try lra; nra. }
  cbv zeta. unfold before_expiry, update_spawn.
  set (g1 := update_difficulty _).
  assert (T : targets g1 = targets g /\ last_spawn g1 = last_spawn g /\
              draws g1 = draws g).
  { unfold g1, update_difficulty. destruct g. unfold_setters.
    match goal with
    | |- context [if ?c then _ else _] => destruct c
    end; auto. }
  destruct T as (T1 & T2 & T3). rewrite T1, T2.
  destruct (Qle_bool (spawn_interval g1) (now - last_spawn g)
            && (length (targets g) <? MAX_TARGETS_ON_SCREEN)%nat) eqn:C.
  - right.
    assert (S : spawn_interval (set_last_spawn now (spawn_target random now g1))
                = spawn_interval g1) by (destruct g1; reflexivity).
    rewrite S, C. split; [reflexivity|]. split; [|split].
    + exists (spawned random now g1). split; [|split].
      * rewrite <- T1, <- spawn_target_targets.
        destruct (spawn_target random now g1); reflexivity.
      * apply spawned_spawn_time.
      * apply K.
    + destruct (spawn_target random now g1); reflexivity.
    + rewrite <- T3. destruct g1; reflexivity.
  - left. rewrite C. auto.
Qed.

Lemma targets_ok_step (now : Q) (g g' : Game) :
  unit_interval random ->
  targets_ok g -> transition random now g g' -> targets_ok g'.
Proof.
  unfold targets_ok. intros U H T. destruct T.
  - cbn. constructor.
  - frame_step. constructor.
  - destruct (update_cases random dt now g) as [->|[P NP]]; [exact H|].
    destruct (update_fields random dt now g P NP)
      as (_ & _ & _ & _ & _ & _ & _ & _ & _ & -> & _).
    apply Forall_sub with (l := targets (before_expiry random now g)).
    { intros a I. apply filter_In in I. apply I. }
    destruct (before_expiry_cases now g)
      as [(_ & -> & _)|(_ & (t & -> & _ & K) & _)]; [exact H|].
    apply Forall_app. split; [exact H|]. constructor; auto.
  - frame_step. exact H.
  - assert (F : Forall target_ok (remove_at i (targets g))).
    { apply Forall_sub with (l := targets g); [|exact H].
      intro a. apply remove_at_incl. }
    frame_step. exact F.
  - frame_step. exact H.
  - frame_step. exact H.
  - frame_step. exact H.
  - frame_step. exact H.
Qed.

Lemma spacing_ok_step (now : Q) (g g' : Game) :
  spacing_ok g -> transition random now g g' -> spacing_ok g'.
Proof.
  unfold spacing_ok. intros (B & S & F) T. destruct T.
  - cbn. unfold SPAWN_INTERVAL_START. split; [split; lra|]. split; constructor.
  - frame_step. unfold SPAWN_INTERVAL_START.
    split; [split; lra|]. split; constructor.
  - destruct (update_cases random dt now g) as [->|[P NP]]; [auto|].
    destruct (update_fields random dt now g P NP)
      as (_ & _ & _ & _ & _ & _ & _ & _ & _ & Ta & _ & _ & Sp & La & _).
    rewrite Ta, Sp, La.
    assert (B' : 35 # 100 <= spawn_interval (before_expiry random now g)
                 /\ spawn_interval (before_expiry random now g) <= 85 # 100).
    { rewrite before_expiry_spawn_interval.
      destruct (Qlt_bool 0 (now - start_time g)); [apply ramp_bounds|exact B]. }
    split; [exact B'|].
    destruct (before_expiry_cases now g)
      as [(_ & -> & -> & _)|(C & (t & -> & St & _) & -> & _)].
    + split; [apply StronglySorted_filter; exact S|].
      apply Forall_sub with (l := targets g); [|exact F].
      intros a I. apply filter_In in I. apply I.
    + apply andb_true_iff in C. destruct C as [C _].
      apply Qle_bool_iff in C.
      assert (G : last_spawn g + (35 # 100) <= now) by lra.
      split.
      * apply StronglySorted_filter. apply StronglySorted_snoc; [exact S|].
        apply Forall_forall. intros a I. rewrite Forall_forall in F.
        destruct (F a I) as [L _]. unfold spawn_gap. rewrite St. lra.
      * apply Forall_forall. intros a I. apply filter_In in I.
        destruct I as [I A]. unfold alive_at, expired in A.
        apply negb_true_iff, Qlt_bool_false_iff in A.
        split; [|exact A].
        apply in_app_or in I. destruct I as [I|[<-|[]]].
        -- rewrite Forall_forall in F. destruct (F a I) as [L _]. lra.
        -- rewrite St. lra.
  - frame_step. auto.
  - assert (S' : StronglySorted spawn_gap (remove_at i (targets g)))
      by (apply StronglySorted_remove_at; exact S).
    assert (F' : Forall (fun t0 =>
                           Target.spawn_time t0 <= last_spawn g /\
                           last_spawn g - Target.spawn_time t0
                           <= Target.lifetime t0)
                   (remove_at i (targets g))).
    { apply Forall_sub with (l := targets g); [|exact F].
      intro a. apply remove_at_incl. }
    frame_step. auto.
  - frame_step. auto.
  - frame_step. auto.
  - frame_step. auto.
  - frame_step. auto.
Qed.

Lemma reachable_spacing_ok (g : Game) : reachable random g -> spacing_ok g.
Proof.
  intro R. apply (reachable_transitions random spacing_ok); [| |exact R].
  - intros now g0 g1. apply spacing_ok_step.
  - unfold spacing_ok. cbn. unfold SPAWN_INTERVAL_START.
    split; [split; lra|]. split; constructor.
Qed.

Lemma reachable_targets_ok (g : Game) :
  unit_interval random -> reachable random g -> targets_ok g.
Proof.
  intros U R. apply (reachable_transitions random targets_ok); [| |exact R].
  - intros now g0 g1. apply targets_ok_step. exact U.
  - unfold targets_ok. cbn. constructor.
Qed.

End Spacing.

(** X4: with [random.random()] in the unit interval, every live target of
    a reachable state has a radius within [16, 36], lies with its whole
    circle inside the 900 x 600 window and clear of the 36 pixel HUD bar
    that [draw] paints at the top, and has a lifetime between 1.2 and
    1.8 seconds.  [spawn_target] leaves wider margins than stated, 8
    pixels to the window and 48 to the top; the statement keeps away
    from the end points of its ranges. *)
Theorem targets_stay_on_screen (random : nat -> Q) (g : Game)
    (t : Target.t) :
  unit_interval random -> reachable random g -> In t (targets g) ->
  16 <= Target.r t /\ Target.r t <= 36 /\
  0 < Target.x t - Target.r t /\ Target.x t + Target.r t < 900 /\
  36 < Target.y t - Target.r t /\ Target.y t + Target.r t < 600 /\
  12 # 10 < Target.lifetime t /\ Target.lifetime t < 18 # 10.
Proof.
  intros U R I.
  pose proof (reachable_targets_ok random g U R) as H.
  unfold targets_ok in H. rewrite Forall_forall in H.
  destruct (H t I) as (H1 & H2 & H3 & H4 & H5 & H6 & H7 & H8).
  repeat split; lra.
Qed.

Lemma targets_stay_on_screen_witness :
  0 < Target.x first_target - Target.r first_target.
Proof.
  apply (targets_stay_on_screen half one_target first_target half_unit
           one_target_reachable).
  vm_compute. left. reflexivity.
Defined.

(** X5: in every reachable state the live targets are listed oldest
    first, any two of them were spawned at least 0.35 seconds apart, and
    none was spawned after [last_spawn]; this holds for every clock and
    every random source. *)
Theorem targets_spawned_apart (random : nat -> Q) (g : Game) :
  reachable random g ->
  StronglySorted
    (fun a b => Target.spawn_time a + (35 # 100) <= Target.spawn_time b)
    (targets g) /\
  (forall t, In t (targets g) -> Target.spawn_time t <= last_spawn g).
Proof.
  intro R. destruct (reachable_spacing_ok random g R) as (_ & S & F).
  split; [exact S|].
  intros t I. rewrite Forall_forall in F. apply (F t I).
Qed.

Lemma targets_spawned_apart_witness :
  StronglySorted
    (fun a b => Target.spawn_time a + (35 # 100) <= Target.spawn_time b)
    (targets one_timeout).
Proof.
  apply (targets_spawned_apart half one_timeout one_timeout_reachable).
Defined.

(** X6: the spawn interval of a reachable state is always within
    [0.35, 0.85], whatever clock values the calls were made with. *)
Theorem spawn_interval_in_bounds (random : nat -> Q) (g : Game) :
  reachable random g ->
  35 # 100 <= spawn_interval g /\ spawn_interval g <= 85 # 100.
Proof.
  intro R. destruct (reachable_spacing_ok random g R) as (B & _). exact B.
Qed.

Lemma spawn_interval_in_bounds_witness :
  35 # 100 <= spawn_interval one_timeout.
Proof.
  apply (spawn_interval_in_bounds half one_timeout one_timeout_reachable).
Defined.

(** X7: with [random.random()] in the unit interval a reachable state
    never has more than 5 live targets: spawns are at least 0.35 seconds
    apart and a target lives at most 1.725 seconds.  The capacity
    check of [update] against [MAX_TARGETS_ON_SCREEN = 7] therefore
    never refuses a spawn. *)
Theorem at_most_five_live_targets (random : nat -> Q) (g : Game) :
  unit_interval random -> reachable random g ->
  (length (targets g) <= 5)%nat /\
  (length (targets g) <? MAX_TARGETS_ON_SCREEN)%nat = true.
Proof.
  intros U R.
  assert (L : (length (targets g) <= 5)%nat).
  { pose proof (reachable_targets_ok random g U R) as K.
    destruct (reachable_spacing_ok random g R) as (_ & S & F).
    unfold targets_ok in K.
    destruct (targets g) as [|a l]; [cbn; lia|].
    assert (M : Forall (fun t => Target.spawn_time t <= last_spawn g) (a :: l)).
    { apply Forall_forall. intros t I. rewrite Forall_forall in F.
      apply (F t I). }
    pose proof (spawn_gap_span l a (last_spawn g) S M) as Sp.
    inversion F as [|? ? [_ Fa] _]; subst.
    inversion K as [|? ? Ka _]; subst.
    destruct Ka as (_ & _ & _ & _ & _ & _ & _ & Li).
    assert (N : inject_Z (Z.of_nat (length l)) < inject_Z 5).
    { change (inject_Z 5) with 5. lra. }
    rewrite <- Zlt_Qlt in N. cbn [length]. lia. }
  split; [exact L|]. apply Nat.ltb_lt. unfold MAX_TARGETS_ON_SCREEN. lia.
Qed.

Lemma at_most_five_live_targets_witness :
  (length (targets one_timeout) <= 5)%nat.
Proof.
  apply (at_most_five_live_targets half one_timeout half_unit
           one_timeout_reachable).
Defined.

(** ** [clamp] *)

(** X8: [clamp(v, lo, hi)] with [lo <= hi] returns a value within
    [lo, hi]: [v] itself when it is in range, [lo] when [v] is below and
    [hi] when it is above.  With the bounds the wrong way round
    ([hi < lo]) it returns [lo] whatever [v] is. *)
Theorem clamp_saturates (v lo hi : Q) :
  (lo <= hi ->
   lo <= clamp v lo hi <= hi /\
   (lo <= v <= hi -> clamp v lo hi == v) /\
   (v < lo -> clamp v lo hi = lo) /\
   (hi < v -> clamp v lo hi == hi)) /\
  (hi < lo -> clamp v lo hi = lo).
Proof.
  split.
  - intro H. split; [apply clamp_bounds; exact H|]. split; [|split].
    + intros [A B]. apply clamp_inside; assumption.
    + intro A. unfold clamp, py_max, py_min.
      assert (E1 : Qlt_bool v hi = true) by (apply Qlt_bool_iff; lra).
      rewrite E1.
      assert (E2 : Qlt_bool lo v = false) by (apply Qlt_bool_false_iff; lra).
      rewrite E2. reflexivity.
    + intro A. unfold clamp, py_max, py_min.
      assert (E1 : Qlt_bool v hi = false) by (apply Qlt_bool_false_iff; lra).
      rewrite E1. destruct (Qlt_bool lo hi) eqn:E2; [reflexivity|].
      apply Qlt_bool_false_iff in E2. lra.
  - intro H. unfold clamp, py_max, py_min.
    destruct (Qlt_bool v hi) eqn:E1.
    + apply Qlt_bool_iff in E1.
      assert (E2 : Qlt_bool lo v = false) by (apply Qlt_bool_false_iff; lra).
      rewrite E2. reflexivity.
    + assert (E2 : Qlt_bool lo hi = false) by (apply Qlt_bool_false_iff; lra).
      rewrite E2. reflexivity.
Qed.

Lemma clamp_saturates_witness : clamp 3 1 2 == 2.
Proof.
  apply (proj1 (clamp_saturates 3 1 2)); lra.
Defined.

(** ** [Target.contains] and clicks *)





(** ** Events, pause and the main loop *)

Section Loop.

Variable random : nat -> Q.

Lemma updates_paused (ticks : list (Q * Q)) (g : Game) :
  paused g = true -> updates random ticks g = g.
Proof.
  intro H. unfold updates. induction ticks as [|tick rest IH]; [reflexivity|].
  cbn [fold_left]. rewrite update_paused by exact H. exact IH.
Qed.

Lemma update_keeps_running (dt now : Q) (g : Game) :
  running (update random dt now g) = running g.
Proof.
  destruct (update_cases random dt now g) as [->|[P NP]]; [reflexivity|].
  destruct (update_fields random dt now g P NP) as (H & _). exact H.
Qed.

Lemma handle_click_keeps_running (pos : Q * Q) (now : Q) (g g' : Game) :
  handle_click pos now g = Ok g' -> running g' = running g.
Proof.
  intro E. destruct (playing g) eqn:P.
  - destruct (handle_click_playing_frame pos now g g' P E) as (H & _).
    exact H.
  - rewrite handle_click_not_playing in E by exact P. injection E as <-.
    destruct g. reflexivity.
Qed.

Lemma handle_event_stays_stopped (now : Q) (event : Event) (g g' : Game) :
  running g = false -> handle_event now event g = Ok g' ->
  running g' = false.
Proof.
  intros H E. destruct event as [|[| | |]|button pos|]; cbn in E;
    try (injection E as <-; destruct g; solve [reflexivity | exact H]).
  - destruct (playing g); injection E as <-; destruct g; exact H.
  - destruct (button =? 1)%Z.
    + rewrite (handle_click_keeps_running pos now g g' E). exact H.
    + injection E as <-. exact H.
Qed.

Lemma handle_events_stay_stopped (now : Q) (events : list Event) :
  forall g g',
    running g = false -> handle_events now events g = Ok g' ->
    running g' = false.
Proof.
  induction events as [|event rest IH]; intros g g' H E; cbn in E.
  - injection E as <-. exact H.
  - destruct (handle_event now event g) as [g1|e] eqn:E1; cbn in E;
      [|discriminate].
    apply (IH g1 g'); [|exact E].
    apply (handle_event_stays_stopped now event g g1); assumption.
Qed.

Lemma handle_events_quit (now : Q) (events : list Event) :
  forall g g',
    In QUIT events \/ In (KEYDOWN K_ESCAPE) events ->
    handle_events now events g = Ok g' -> running g' = false.
Proof.
  induction events as [|event rest IH]; intros g g' I E.
  - destruct I as [[]|[]].
  - cbn in E.
    destruct (handle_event now event g) as [g1|e] eqn:E1; cbn in E;
      [|discriminate].
    assert (C : event = QUIT \/ event = KEYDOWN K_ESCAPE \/
                (In QUIT rest \/ In (KEYDOWN K_ESCAPE) rest)).
    { destruct I as [[I|I]|[I|I]]; auto. }
    destruct C as [->|[->|C]].
    + cbn in E1. injection E1 as <-.
      apply (handle_events_stay_stopped now rest (set_running false g) g');
        [destruct g; reflexivity | exact E].
    + cbn in E1. injection E1 as <-.
      apply (handle_events_stay_stopped now rest (set_running false g) g');
        [destruct g; reflexivity | exact E].
    + apply (IH g1 g' C E).
Qed.

(** A frame returns on every game object whose targets have positive
    lifetimes, and leaves such a game object. *)
Lemma frame_total (dt now : Q) (events : list Event) (g : Game) :
  unit_interval random -> lifetimes_ok g ->
  exists g', frame random dt now events g = Ok g' /\ lifetimes_ok g'.
Proof.
  intros U L. unfold frame.
  pose proof (lifetimes_closed random U now) as C.
  destruct (handle_events_total now events g) as [g1 E]. rewrite E.
  cbn [bind].
  assert (L1 : lifetimes_ok g1).
  { apply (handle_events_preserves random lifetimes_ok now C events g g1 L
             E). }
  assert (L2 : lifetimes_ok (update random dt now g1)).
  { apply (sc_update _ _ _ C). exact L1. }
  destruct (draw_total now _ L2) as [g' D]. exists g'. split; [exact D|].
  apply draw_ok in D. subst g'. apply (sc_floating_texts _ _ _ C). exact L2.
Qed.

Lemma draw_keeps_running (now : Q) (g g' : Game) :
  draw now g = Ok g' -> running g' = running g.
Proof.
  intro E. apply draw_ok in E. subst g'. destruct g. reflexivity.
Qed.

(** The target loop of [draw] raises nothing but [ZeroDivisionError],
    and raises it when some target has a zero lifetime. *)
Lemma draw_targets_zero_lifetime (now : Q) (ts : list Target.t) :
  (exists t, In t ts /\ Target.lifetime t == 0) ->
  draw_targets now ts = Raise ZeroDivisionError.
Proof.
  induction ts as [|a ts IH]; intros (t & I & Z); [destruct I|].
  cbn [draw_targets]. unfold draw_target, truediv.
  destruct (Qeq_bool (Target.lifetime a) 0) eqn:E; cbn [bind];
    [reflexivity|].
  destruct I as [<-|I].
  - apply Qeq_bool_iff in Z. congruence.
  - rewrite IH by (exists t; auto). reflexivity.
Qed.

End Loop.

(** X10: pausing a playing round, running any number of updates, and
    pressing P again gives back exactly the game object from before the
    pause: nothing is spawned, expired, scored or timed while paused. *)
Theorem pause_then_resume_is_identity (random : nat -> Q)
    (ticks : list (Q * Q)) (now1 now2 : Q) (g : Game) :
  playing g = true -> paused g = false ->
  (g1 <- handle_events now1 [KEYDOWN K_p] g ;;
   handle_events now2 [KEYDOWN K_p] (updates random ticks g1)) = Ok g.
Proof.
  intros P NP. cbn [handle_events handle_event bind]. rewrite P, NP.
  cbn [bind negb].
  rewrite updates_paused by (destruct g; reflexivity).
  cbn [handle_event handle_events bind].
  change (playing (set_paused true g)) with (playing g). rewrite P.
  cbn [bind]. destruct g. cbn in NP. subst. reflexivity.
Qed.

Lemma pause_then_resume_is_identity_witness :
  (g1 <- handle_events 12 [KEYDOWN K_p] one_target ;;
   handle_events 40 [KEYDOWN K_p] (updates half [(1, 13); (1, 30)] g1))
  = Ok one_target.
Proof.
  apply (pause_then_resume_is_identity half); vm_compute; reflexivity.
Defined.

(** X11: when the events of a frame contain a window-close event or the
    ESC key, the frame that the main loop finishes (events, update,
    draw) ends with [running] cleared, and the loop runs no further
    frame, whatever input is still queued.  The frame does finish when
    every live target has a positive lifetime, as in every reachable
    state. *)
Theorem run_stops_after_quit (random : nat -> Q) (dt now : Q)
    (events : list Event) (rest : list (Q * Q * list Event)) (g : Game) :
  running g = true ->
  In QUIT events \/ In (KEYDOWN K_ESCAPE) events ->
  (forall g',
      frame random dt now events g = Ok g' ->
      running g' = false /\
      run random ((dt, now, events) :: rest) g = Ok g') /\
  (unit_interval random -> lifetimes_ok g ->
   exists g',
     frame random dt now events g = Ok g' /\ running g' = false /\
     run random ((dt, now, events) :: rest) g = Ok g').
Proof.
  intros R I.
  assert (K : forall g',
             frame random dt now events g = Ok g' ->
             running g' = false /\
             run random ((dt, now, events) :: rest) g = Ok g').
  { intros g' F.
    assert (S : running g' = false).
    { unfold frame in F.
      destruct (handle_events now events g) as [g1|e] eqn:E;
        cbn [bind] in F; [|discriminate].
      rewrite (draw_keeps_running now _ g' F), update_keeps_running.
      apply (handle_events_quit now events g g1 I E). }
    split; [exact S|].
    cbn [run]. rewrite R, F. cbn [bind].
    destruct rest as [|[[dt' now'] events'] rest']; cbn [run]; [reflexivity|].
    rewrite S. reflexivity. }
  split; [exact K|].
  intros U L. destruct (frame_total random dt now events g U L) as (g' & F & _).
  exists g'. destruct (K g' F) as [S E]. auto.
Qed.

Lemma run_stops_after_quit_witness :
  exists g',
    running g' = false /\
    run half [(0, 12, [QUIT]); (0, 13, [MOUSEBUTTONDOWN 1 (450, 324)])]
      one_target = Ok g'.
Proof.
  destruct (proj2 (run_stops_after_quit half 0 12 [QUIT]
                     [(0, 13, [MOUSEBUTTONDOWN 1 (450, 324)])] one_target
                     eq_refl (or_introl (or_introl eq_refl)))
              half_unit (reachable_lifetimes_ok half half_unit one_target
                           one_target_reachable))
    as (g' & _ & S & E).
  exists g'. split; assumption.
Defined.

(** X12: the main loop raises in no frame when it starts from a game
    object whose live targets all have positive lifetimes, as every
    reachable state has them (random values in the unit interval): the
    index that [handle_click] pops is always within the target list, its
    ring index is always within [RING_SCORES], the target loop of [draw]
    divides by positive lifetimes and the accuracy of the HUD never
    divides by zero.  On a game object with a target of zero lifetime
    [draw] raises [ZeroDivisionError]. *)
Theorem main_loop_never_raises (random : nat -> Q) :
  (forall frames g,
      unit_interval random -> lifetimes_ok g ->
      exists g', run random frames g = Ok g') /\
  (forall g,
      unit_interval random -> reachable random g -> lifetimes_ok g) /\
  (forall now g,
      (exists t, In t (targets g) /\ Target.lifetime t == 0) ->
      draw now g = Raise ZeroDivisionError).
Proof.
  split; [|split].
  - intros frames.
    induction frames as [|[[dt now] events] rest IH]; intros g U L;
      cbn [run].
    + eauto.
    + destruct (running g); [|eauto].
      destruct (frame_total random dt now events g U L) as (g1 & -> & L1).
      cbn [bind]. apply IH; assumption.
  - intros g U R. apply (reachable_lifetimes_ok random U g R).
  - intros now g Z. unfold draw.
    rewrite (draw_targets_zero_lifetime now (targets g) Z). reflexivity.
Qed.

Lemma main_loop_never_raises_witness :
  exists g',
    run half [(0, 12, [MOUSEBUTTONDOWN 1 (450, 324)]); (0, 13, [])]
      one_target = Ok g'.
Proof.
  apply (proj1 (main_loop_never_raises half)).
  - exact half_unit.
  - apply (proj1 (proj2 (main_loop_never_raises half))).
    + exact half_unit.
    + exact one_target_reachable.
Defined.

Lemma filter_idempotent {A : Type} (f : A -> bool) (l : list A) :
  filter f (filter f l) = filter f l.
Proof.
  induction l as [|a l IH]; [reflexivity|].
  cbn [filter]. destruct (f a) eqn:E; [|exact IH].
  cbn [filter]. rewrite E, IH. reflexivity.
Qed.

(** X13: [draw] keeps exactly the feedback events younger than 0.7
    seconds, in order, and changes nothing else of the game object;
    drawing again at the same clock value changes nothing at all. *)
Theorem draw_prunes_old_feedback (now : Q) (g g' : Game) :
  draw now g = Ok g' ->
  (forall ft,
      In ft (floating_texts g') <->
      In ft (floating_texts g) /\ now - ft_birth ft < 7 # 10) /\
  set_floating_texts (floating_texts g) g' = g /\
  draw now g' = Ok g'.
Proof.
  intro E. pose proof (draw_ok now g g' E) as D. unfold draw in E.
  destruct (draw_targets now (targets g)) as [looks|e] eqn:T;
    cbn [bind] in E; [|discriminate].
  destruct (accuracy _) as [a|e] eqn:A; cbn [bind] in E; [|discriminate].
  clear E. subst g'. unfold ft_alive. split; [|split].
  - intro ft. change (floating_texts (set_floating_texts ?l g)) with l.
    rewrite filter_In, Qlt_bool_iff. reflexivity.
  - destruct g. reflexivity.
  - unfold draw.
    change (targets (set_floating_texts ?l g)) with (targets g).
    rewrite T. cbn [bind].
    change (floating_texts (set_floating_texts ?l g)) with l.
    rewrite filter_idempotent.
    assert (S : forall l l',
               set_floating_texts l (set_floating_texts l' g)
               = set_floating_texts l g) by (intros; destruct g; reflexivity).
    rewrite S, A. reflexivity.
Qed.

Lemma draw_prunes_old_feedback_witness :
  draw (25 # 2)
    (set_floating_texts (ft_alive (25 # 2) (floating_texts one_miss))
       one_miss)
  = Ok (set_floating_texts (ft_alive (25 # 2) (floating_texts one_miss))
          one_miss).
Proof.
  apply (draw_prunes_old_feedback (25 # 2) one_miss). vm_compute.
  reflexivity.
Defined.

(** ** The first target of a round *)

Lemma ramp_early (t : Q) : 0 <= t -> t < 5 -> ramp t == 85 # 100.
Proof.
  intros A B. unfold ramp.
  assert (F : Qfloor (t / 5) = 0%Z).
  { assert (L : 0 <= t / 5) by (apply Qle_shift_div_l; lra).
    assert (U : t / 5 < 1) by (apply Qlt_shift_div_r; lra).
    pose proof (Qfloor_le (t / 5)) as F1.
    pose proof (Qlt_floor (t / 5)) as F2.
    assert (Z1 : inject_Z (Qfloor (t / 5)) < inject_Z 1)
      by (change (inject_Z 1) with 1; lra).
    assert (Z2 : inject_Z 0 < inject_Z (Qfloor (t / 5) + 1))
      by (change (inject_Z 0) with 0; lra).
    rewrite <- Zlt_Qlt in Z1, Z2. lia. }
  rewrite F. vm_compute. reflexivity.
Qed.

(** X14: the first update after a round start at [now0] appends no
    target and draws no random number while less than 0.85 seconds have
    passed, in particular not in the frame of the starting click; from
    0.85 seconds on it spawns exactly one target, at its clock value. *)
Theorem first_target_after_start (random : nat -> Q) (dt now0 now : Q)
    (g : Game) :
  paused g = false ->
  let u := update random dt now (start_round now0 g) in
  (now - now0 < 85 # 100 -> targets u = [] /\ draws u = draws g) /\
  (85 # 100 <= now - now0 -> unit_interval random ->
   exists t,
     targets u = [t] /\ Target.spawn_time t = now /\ last_spawn u = now).
Proof.
  intros NP u. set (g0 := start_round now0 g) in *.
  assert (P0 : playing g0 = true) by (destruct g; reflexivity).
  assert (NP0 : paused g0 = false) by (destruct g; exact NP).
  assert (T0 : targets g0 = []) by (destruct g; reflexivity).
  assert (L0 : last_spawn g0 = now0) by (destruct g; reflexivity).
  assert (S0 : start_time g0 = now0) by (destruct g; reflexivity).
  assert (I0 : spawn_interval g0 = 85 # 100) by (destruct g; reflexivity).
  assert (D0 : draws g0 = draws g) by (destruct g; reflexivity).
  destruct (update_fields random dt now g0 P0 NP0)
    as (_ & _ & _ & _ & _ & _ & _ & _ & _ & Ta & _ & _ & _ & La & Dr).
  fold u in Ta, La, Dr.
  pose proof (before_expiry_spawn_interval random now g0) as Iv.
  rewrite S0, I0 in Iv.
  pose proof (ramp_bounds (now - now0)) as [_ Rb].
  destruct (before_expiry_cases random now g0)
    as [(C & Tb & Lb & Db)|(C & (t & Tb & St & K) & Lb & Db)];
    rewrite L0, T0 in C.
  - split.
    + intros _. rewrite Ta, Tb, T0, Dr, Db, D0. auto.
    + intros A _. exfalso.
      apply andb_false_iff in C. destruct C as [C|C]; [|discriminate].
      apply Qle_bool_false_iff in C. rewrite Iv in C.
      assert (E : Qlt_bool 0 (now - now0) = true)
        by (apply Qlt_bool_iff; lra).
      rewrite E in C. lra.
  - apply andb_true_iff in C. destruct C as [C _].
    apply Qle_bool_iff in C. rewrite Iv in C.
    split.
    + intro A. exfalso.
      destruct (Qlt_bool 0 (now - now0)) eqn:E; [|lra].
      apply Qlt_bool_iff in E.
      rewrite (ramp_early (now - now0)) in C; lra.
    + intros _ U. exists t. rewrite Ta, Tb, T0, La, Lb. cbn [app filter].
      assert (A : alive_at now t = true).
      { unfold alive_at, expired. apply negb_true_iff, Qlt_bool_false_iff.
        destruct (K U) as (_ & _ & _ & _ & _ & _ & Li & _). rewrite St. lra. }
      rewrite A. auto.
Qed.

Lemma first_target_after_start_witness :
  targets (update half 0 10 (start_round 10 new_game)) = [].
Proof.
  apply (first_target_after_start half 0 10 10 new_game).
  - vm_compute. reflexivity.
  - vm_compute. reflexivity.
Defined.

(** ** The target loop of [draw] *)

Lemma clamp_unit_high (v : Q) : 1 <= v -> clamp v 0 1 == 1.
Proof.
  intro H. unfold clamp, py_max, py_min.
  assert (E1 : Qlt_bool v 1 = false) by (apply Qlt_bool_false_iff; lra).
  rewrite E1. reflexivity.
Qed.

(** X15: for a target with a positive lifetime [draw] computes a red
    level within [30, 255] and an arc fraction within [0, 1]; while the
    target's age is within its lifetime the fraction is exactly
    [age / lifetime]; at age 0 the red level is 255 and the arc is
    empty, and from the end of the lifetime on the red level is 30 and
    the arc is complete. *)
Theorem draw_target_look (now : Q) (t : Target.t) :
  0 < Target.lifetime t ->
  exists look,
    draw_target now t = Ok look /\
    (30 <= alpha look /\ alpha look <= 255) /\
    (0 <= progress look /\ progress look <= 1) /\
    (0 <= now - Target.spawn_time t <= Target.lifetime t ->
     progress look == (now - Target.spawn_time t) / Target.lifetime t) /\
    (now == Target.spawn_time t ->
     alpha look == 255 /\ progress look == 0) /\
    (Target.lifetime t <= now - Target.spawn_time t ->
     alpha look == 30 /\ progress look == 1).
Proof.
  intro L.
  assert (N : ~ Target.lifetime t == 0) by lra.
  unfold draw_target. rewrite !(truediv_ok _ _ N). cbn [bind].
  eexists. split; [reflexivity|]. cbn [alpha progress].
  split; [apply clamp_bounds; lra|].
  split; [apply clamp_bounds; lra|].
  split; [|split].
  - intros [A B]. apply clamp_inside.
    + apply Qle_shift_div_l; lra.
    + apply Qle_shift_div_r; lra.
  - intro E.
    assert (Z : (now - Target.spawn_time t) / Target.lifetime t == 0).
    { unfold Qdiv. setoid_replace (now - Target.spawn_time t) with 0 by lra.
      ring. }
    split.
    + assert (I : py_int ((now - Target.spawn_time t) / Target.lifetime t * 255)
                  = 0%Z).
      { unfold py_int.
        assert (Z' : (now - Target.spawn_time t) / Target.lifetime t * 255 == 0)
          by (rewrite Z; ring).
        rewrite (Qfloor_comp _ _ Z'), (Qceiling_comp _ _ Z').
        destruct (Qle_bool 0 _); reflexivity. }
      rewrite I. vm_compute. reflexivity.
    + rewrite (clamp_inside _ 0 1); lra.
  - intro A.
    assert (B : 1 <= (now - Target.spawn_time t) / Target.lifetime t)
      by (apply Qle_shift_div_l; lra).
    split.
    + apply clamp_below; [lra|].
      assert (I : (255 <= py_int ((now - Target.spawn_time t)
                                  / Target.lifetime t * 255))%Z).
      { unfold py_int.
        assert (C : Qle_bool 0 ((now - Target.spawn_time t)
                                / Target.lifetime t * 255) = true)
          by (apply Qle_bool_iff; lra).
        rewrite C.
        apply Z.le_trans with (m := Qfloor (inject_Z 255));
          [rewrite Qfloor_Z; lia|].
        apply Qfloor_resp_le. change (inject_Z 255) with 255. lra. }
      assert (J : (255 - py_int ((now - Target.spawn_time t)
                                 / Target.lifetime t * 255) <= 0)%Z) by lia.
      rewrite Zle_Qle in J. change (inject_Z 0) with 0 in J. lra.
    + apply clamp_unit_high. exact B.
Qed.

Lemma draw_target_look_witness :
  exists look, draw_target 11 first_target = Ok look /\ alpha look == 255.
Proof.
  destruct (draw_target_look 11 first_target)
    as (look & E & _ & _ & _ & A & _).
  - vm_compute. reflexivity.
  - exists look. split; [exact E|]. apply A. vm_compute. reflexivity.
Defined.

(** X16: in a reachable state (random values in the unit interval) the
    target loop of [draw] never divides by zero and yields one look per
    live target; on a target whose lifetime is zero, which no reachable
    state holds, it raises [ZeroDivisionError]. *)
Theorem draw_targets_never_raises (random : nat -> Q) :
  (forall now g,
      unit_interval random -> reachable random g ->
      exists looks,
        draw_targets now (targets g) = Ok looks /\
        length looks = length (targets g)) /\
  (forall now t,
      Target.lifetime t == 0 -> draw_target now t = Raise ZeroDivisionError).
Proof.
  split.
  - intros now g U R.
    pose proof (reachable_targets_ok random g U R) as K.
    unfold targets_ok in K.
    induction (targets g) as [|t ts IH]; cbn [draw_targets].
    + exists []. auto.
    + inversion K as [|? ? Kt Ks]; subst.
      destruct Kt as (_ & _ & _ & _ & _ & _ & Li & _).
      assert (N : ~ Target.lifetime t == 0) by lra.
      unfold draw_target. rewrite !(truediv_ok _ _ N). cbn [bind].
      destruct (IH Ks) as (looks & -> & Le). cbn [bind].
      eexists. split; [reflexivity|]. cbn [length]. rewrite Le. reflexivity.
  - intros now t Z. unfold draw_target, truediv.
    apply Qeq_bool_iff in Z. rewrite Z. reflexivity.
Qed.

Lemma draw_targets_never_raises_witness :
  exists looks,
    draw_targets 12 (targets one_target) = Ok looks /\
    length looks = length (targets one_target).
Proof.
  apply (proj1 (draw_targets_never_raises half) 12 one_target half_unit
           one_target_reachable).
Defined.

(** ** A clock that never runs backwards *)

Section Clock.

Variable random : nat -> Q.

Lemma step_closed_at_conj (now : Q) (P1 P2 : Game -> Prop) :
  step_closed_at random now P1 -> step_closed_at random now P2 ->
  step_closed_at random now (fun g => P1 g /\ P2 g).
Proof.
  intros C1 C2. split.
  - intros g [H1 H2].
    split; [apply (sc_reset _ _ _ C1) | apply (sc_reset _ _ _ C2)];
      assumption.
  - intros g [H1 H2].
    split; [apply (sc_start_round _ _ _ C1) | apply (sc_start_round _ _ _ C2)];
      assumption.
  - intros dt g [H1 H2].
    split; [apply (sc_update _ _ _ C1) | apply (sc_update _ _ _ C2)];
      assumption.
  - intros pos g [H1 H2] Pl.
    split; [apply (sc_miss _ _ _ C1) | apply (sc_miss _ _ _ C2)]; assumption.
  - intros pos i t g [H1 H2] Pl Cl.
    split; [apply (sc_hit _ _ _ C1) | apply (sc_hit _ _ _ C2)]; assumption.
  - intros b g [H1 H2] Pl.
    split; [apply (sc_pause _ _ _ C1) | apply (sc_pause _ _ _ C2)]; assumption.
  - intros v g [H1 H2].
    split; [apply (sc_best_score _ _ _ C1) | apply (sc_best_score _ _ _ C2)];
      assumption.
  - intros b g [H1 H2].
    split; [apply (sc_running _ _ _ C1) | apply (sc_running _ _ _ C2)];
      assumption.
  - intros fts g [H1 H2].
    split; [apply (sc_floating_texts _ _ _ C1)
           | apply (sc_floating_texts _ _ _ C2)]; assumption.
Qed.

Lemma ages_closed (now : Q) : step_closed_at random now (ages_ok now).
Proof.
  unfold ages_ok. split.
  - intros g _. cbn. constructor.
  - intros g _. frame_step. constructor.
  - intros dt g H.
    destruct (update_cases random dt now g) as [->|[P NP]]; [exact H|].
    destruct (update_fields random dt now g P NP)
      as (_ & _ & _ & _ & _ & _ & _ & _ & _ & -> & _).
    apply Forall_sub with (l := targets (before_expiry random now g)).
    { intros a I. apply filter_In in I. apply I. }
    destruct (before_expiry_cases random now g)
      as [(_ & -> & _)|(_ & (t & -> & St & _) & _)]; [exact H|].
    apply Forall_app. split; [exact H|].
    constructor; [rewrite St; lra | constructor].
  - intros pos g H _. frame_step. exact H.
  - intros pos i t g H _ _.
    assert (F : Forall (fun t0 => Target.spawn_time t0 <= now)
                  (remove_at i (targets g))).
    { apply Forall_sub with (l := targets g); [|exact H].
      intro a. apply remove_at_incl. }
    frame_step. exact F.
  - intros b g H _. frame_step. exact H.
  - intros v g H. frame_step. exact H.
  - intros b g H. frame_step. exact H.
  - intros fts g H. frame_step. exact H.
Qed.

Lemma ages_ok_later (t now : Q) (g : Game) :
  ages_ok t g -> t <= now -> ages_ok now g.
Proof.
  unfold ages_ok. intros H L. apply Forall_forall. intros a I.
  rewrite Forall_forall in H. specialize (H a I). cbv beta in H. lra.
Qed.

(** A property that survives the passing of time and every transition
    holds at the clock value of the last call. *)
Lemma calls_at_last_clock (P : Q -> Game -> Prop) :
  (forall t now g, P t g -> t <= now -> P now g) ->
  (forall now, step_closed_at random now (P now)) ->
  forall cs t g g',
    P t g -> monotone_clock t cs -> calls random cs g = Ok g' ->
    P (last_clock t cs) g'.
Proof.
  intros Later Closed cs.
  induction cs as [|c rest IH]; intros t g g' H M E; cbn in E.
  - injection E as <-. exact H.
  - destruct (call random c g) as [g1|e] eqn:E1; cbn in E; [|discriminate].
    cbn [monotone_clock last_clock] in *.
    destruct (call_now c) as [now|] eqn:N.
    + destruct M as [L M]. apply (IH now g1 g'); [|exact M|exact E].
      apply (call_preserves random (P now) now (Closed now) c g g1); auto.
      apply Later with (t := t); assumption.
    + apply (IH t g1 g'); [|exact M|exact E].
      apply (call_preserves random (P t) t (Closed t) c g g1); auto.
Qed.

End Clock.

(** X17: if the clock values of the calls never decrease, then at the
    clock value of the last call no live target has a negative age and,
    while a round is playing, the round did not start in the future and
    the stored elapsed time is between 0 and the time since the start of
    the round. *)
Theorem forward_clock_keeps_times_nonnegative (random : nat -> Q) (t0 : Q)
    (cs : list Call) (g : Game) :
  monotone_clock t0 cs -> calls random cs new_game = Ok g ->
  let now := last_clock t0 cs in
  (forall t, In t (targets g) -> 0 <= now - Target.spawn_time t) /\
  (playing g = true ->
   start_time g <= now /\ 0 <= elapsed g /\ elapsed g <= now - start_time g).
Proof.
  intros M E now.
  assert (H : ages_ok now g /\ ramp_ok now g).
  { apply (calls_at_last_clock random
             (fun now g => ages_ok now g /\ ramp_ok now g))
      with (cs := cs) (t := t0) (g := new_game); try assumption.
    - intros t n g0 [A R] L.
      split; [apply ages_ok_later with (t := t)
             | apply ramp_ok_later with (t := t)]; assumption.
    - intro n. apply step_closed_at_conj; [apply ages_closed|apply ramp_closed].
    - split.
      + unfold ages_ok. cbn. constructor.
      + split; [vm_compute; reflexivity|]. cbn. discriminate. }
  destruct H as [A [_ R]]. split; [|exact R].
  intros t I. unfold ages_ok in A. rewrite Forall_forall in A.
  specialize (A t I). cbv beta in A. lra.
Qed.

Lemma forward_clock_keeps_times_nonnegative_witness :
  start_time one_timeout <= 13 /\ 0 <= elapsed one_timeout /\
  elapsed one_timeout <= 13 - start_time one_timeout.
Proof.
  apply (forward_clock_keeps_times_nonnegative half 0
           [CallStartRound 10; CallUpdate 0 11; CallUpdate 0 13] one_timeout).
  - cbn. repeat split; lra.
  - vm_compute. reflexivity.
  - vm_compute. reflexivity.
Defined.

(** ** Clicks and the clock *)

Lemma closest_hit_unique (pos : Q * Q) (ts : list Target.t) (i i' : nat)
    (t t' : Target.t) :
  closest_hit pos ts i t -> closest_hit pos ts i' t' -> i = i' /\ t = t'.
Proof.
  intros (N & O & _ & M) (N' & O' & _ & M').
  destruct (M i' t' N' O') as [A B]. destruct (M' i t N O) as [A' B'].
  assert (E : i = i').
  { destruct (Nat.lt_trichotomy i i') as [L|[L|L]]; [|exact L|].
    - specialize (B' L). lra.
    - specialize (B L). lra. }
  subst i'. split; [reflexivity|]. congruence.
Qed.

(** X18: [handle_click] uses its clock value only as the birth time of
    the feedback event.  During play the same click at two clock values
    gives game objects that differ in nothing but their feedback events:
    a target whose lifetime has passed is still hit, and scored, until an
    update removes it. *)
Theorem click_resolution_ignores_clock (pos : Q * Q) (now now' : Q)
    (g : Game) :
  playing g = true ->
  exists g1 g2,
    handle_click pos now g = Ok g1 /\ handle_click pos now' g = Ok g2 /\
    set_floating_texts [] g1 = set_floating_texts [] g2.
Proof.
  intro P.
  destruct (handle_click_playing pos now g P) as [[F M]|(i & t & C & M)];
    destruct (handle_click_playing pos now' g P)
      as [[F' M']|(i' & t' & C' & M')];
    rewrite M, M'.
  - do 2 eexists. split; [reflexivity|]. split; [reflexivity|].
    destruct g. reflexivity.
  - exfalso. destruct C' as (N & O & L & _).
    apply nth_error_In in N. specialize (F t' N O). lra.
  - exfalso. destruct C as (N & O & L & _).
    apply nth_error_In in N. specialize (F' t N O). lra.
  - destruct (closest_hit_unique pos (targets g) i i' t t' C C') as [<- <-].
    do 2 eexists. split; [reflexivity|]. split; [reflexivity|].
    destruct g. reflexivity.
Qed.

Lemma click_resolution_ignores_clock_witness :
  exists g1 g2,
    handle_click (450, 324) 12 one_target = Ok g1 /\
    handle_click (450, 324) 99 one_target = Ok g2 /\
    set_floating_texts [] g1 = set_floating_texts [] g2.
Proof.
  apply (click_resolution_ignores_clock (450, 324) 12 99 one_target).
  vm_compute. reflexivity.
Defined.

(** ** [update] and the clock values it is given *)


